(** * Scan-session state machine of [src/App.jsx]

    A shallow embedding of the [App] component: its React state (the
    session), the refs and browser resources its handlers touch
    (repeating timers, object URLs, the camera stream, requests in
    flight), and every handler as a function on that world.  The event
    loop is a list of events folded through [handle].

    Numbers: [progress] is an IEEE double in the browser.  A double is
    modelled by the rational it denotes, and double arithmetic by the
    exact operation followed by rounding to the nearest double. *)

From Stdlib Require Import QArith Qround Qpower ZArith String List Lia Lqa.
From Stdlib Require Import DecimalString.
From stdpp Require Import base gmap sets.
Import ListNotations.

Local Open Scope string_scope.

(* stdpp's set_solver clears hypotheses it may already have consumed. *)
#[local] Set Warnings "-clear-no-such-hyp".

(* stdpp keeps [simpl] from unfolding string append; the proofs about
   class names below compute with it. *)
#[local] Arguments String.append !s1 s2 : simpl nomatch.

Module App.

(** ** Data *)

(** [mode]: 'idle' | 'upload' | 'camera' | 'scanning' | 'result' (line 11). *)
Inductive Mode := MIdle | MUpload | MCamera | MScanning | MResult.

#[global] Instance Mode_eq_dec : EqDecision Mode.
Proof. solve_decision. Defined.

(** What [resp.json()] can resolve to: any JSON value.  [JNull] is also
    JavaScript's [null], the initial value of [result]. *)
#[local] Unset Elimination Schemes.
Inductive json :=
| JNull
| JBool (b : bool)
| JNum (q : Q)
| JStr (s : string)
| JArr (items : list json)
| JObj (fields : list (string * json)).
#[local] Set Elimination Schemes.

(** JavaScript truthiness, as used by [result && ...] and [!result]. *)
Definition truthy (v : json) : bool :=
  match v with
  | JNull => false
  | JBool b => b
  | JNum q => negb (Qeq_bool q 0)
  | JStr s => negb (String.eqb s "")
  | JArr _ | JObj _ => true
  end.

(** A preview URL: the empty string, or the [n]-th URL minted by
    [URL.createObjectURL]. *)
Inductive url := NoURL | BlobURL (n : nat).

Definition Blob := list Byte.byte.

(** A [File] of an input or a drop: a blob with a name. *)
Record File := { file_name : string; file_bytes : Blob }.

(** The six [useState] cells of [App] (lines 11-16). *)
Record Session := {
  mode : Mode;
  fileName : string;
  previewURL : url;
  result : json;
  progress : Q;
  error : string
}.

(** Who called [clearInterval]: the updater inside the tick (line 70) or
    the closure [beginScanUI] returns (line 74). *)
Inductive Canceller := ByTick | ByHandle.

#[global] Instance Canceller_eq_dec : EqDecision Canceller.
Proof. solve_decision. Defined.

(** The multipart request of one [uploadToAPI] call (lines 83-85). *)
Record Request := { req_image : Blob; req_name : string }.

(** The component and the browser around it.  An [uploadToAPI] call is
    identified by the id of the interval it started, which is what its
    closure [endProgress] holds.  [pendingBlobs] counts the
    [canvas.toBlob] callbacks that have not run yet.  [cleared] is a
    log of the [clearInterval] calls, kept only to count them. *)
Record World := {
  sess : Session;
  streamRef : option nat;
  openStreams : gset nat;
  cameraRequests : nat;
  pendingBlobs : nat;
  intervals : gset nat;
  nextInterval : nat;
  inflight : gmap nat Request;
  objectURLs : gset nat;
  nextURL : nat;
  cleared : list (nat * Canceller)
}.

(** [mode w] reads the session of a world. *)
Coercion sess : World >-> Session.

Definition initial_session : Session :=
  {| mode := MIdle; fileName := ""; previewURL := NoURL;
     result := JNull; progress := 0; error := "" |}.

(** The world right after mount: the mode effect has run [stopCamera]
    on an empty [streamRef]. *)
Definition init : World :=
  {| sess := initial_session; streamRef := None; openStreams := ∅;
     cameraRequests := 0; pendingBlobs := 0; intervals := ∅; nextInterval := 0;
     inflight := ∅; objectURLs := ∅; nextURL := 0; cleared := [] |}.

(** ** State setters *)

Definition with_sess (f : Session -> Session) (w : World) : World :=
  {| sess := f (sess w); streamRef := streamRef w;
     openStreams := openStreams w; cameraRequests := cameraRequests w;
     pendingBlobs := pendingBlobs w;
     intervals := intervals w; nextInterval := nextInterval w;
     inflight := inflight w; objectURLs := objectURLs w;
     nextURL := nextURL w; cleared := cleared w |}.

Definition setMode (m : Mode) : World -> World :=
  with_sess (fun s => {| mode := m; fileName := fileName s;
    previewURL := previewURL s; result := result s;
    progress := progress s; error := error s |}).

Definition setFileName (n : string) : World -> World :=
  with_sess (fun s => {| mode := mode s; fileName := n;
    previewURL := previewURL s; result := result s;
    progress := progress s; error := error s |}).

Definition setPreviewURL (u : url) : World -> World :=
  with_sess (fun s => {| mode := mode s; fileName := fileName s;
    previewURL := u; result := result s;
    progress := progress s; error := error s |}).

Definition setResult (r : json) : World -> World :=
  with_sess (fun s => {| mode := mode s; fileName := fileName s;
    previewURL := previewURL s; result := r;
    progress := progress s; error := error s |}).

Definition setProgress (p : Q) : World -> World :=
  with_sess (fun s => {| mode := mode s; fileName := fileName s;
    previewURL := previewURL s; result := result s;
    progress := p; error := error s |}).

Definition setError (e : string) : World -> World :=
  with_sess (fun s => {| mode := mode s; fileName := fileName s;
    previewURL := previewURL s; result := result s;
    progress := progress s; error := e |}).

(** ** Browser primitives *)

(** [setInterval]: schedules a repeating timer under a fresh id. *)
Definition setInterval (w : World) : World * nat :=
  ({| sess := sess w; streamRef := streamRef w;
      openStreams := openStreams w; cameraRequests := cameraRequests w;
     pendingBlobs := pendingBlobs w;
      intervals := {[nextInterval w]} ∪ intervals w;
      nextInterval := S (nextInterval w);
      inflight := inflight w; objectURLs := objectURLs w;
      nextURL := nextURL w; cleared := cleared w |}, nextInterval w).

(** [clearInterval(id)]: unschedules [id]; harmless when it no longer
    runs.  The call is logged with its call site. *)
Definition clearInterval (who : Canceller) (id : nat) (w : World) : World :=
  {| sess := sess w; streamRef := streamRef w;
     openStreams := openStreams w; cameraRequests := cameraRequests w;
     pendingBlobs := pendingBlobs w;
     intervals := intervals w ∖ {[id]};
     nextInterval := nextInterval w;
     inflight := inflight w; objectURLs := objectURLs w;
     nextURL := nextURL w; cleared := (id, who) :: cleared w |}.

(** [URL.createObjectURL]: a fresh URL that stays live until revoked. *)
Definition createObjectURL (w : World) : World * nat :=
  ({| sess := sess w; streamRef := streamRef w;
      openStreams := openStreams w; cameraRequests := cameraRequests w;
     pendingBlobs := pendingBlobs w;
      intervals := intervals w; nextInterval := nextInterval w;
      inflight := inflight w;
      objectURLs := {[nextURL w]} ∪ objectURLs w;
      nextURL := S (nextURL w); cleared := cleared w |}, nextURL w).

Definition revokeObjectURL (u : nat) (w : World) : World :=
  {| sess := sess w; streamRef := streamRef w;
     openStreams := openStreams w; cameraRequests := cameraRequests w;
     pendingBlobs := pendingBlobs w;
     intervals := intervals w; nextInterval := nextInterval w;
     inflight := inflight w; objectURLs := objectURLs w ∖ {[u]};
     nextURL := nextURL w; cleared := cleared w |}.

(** [fetch(..., {method: 'POST', body: form})]: the request leaves; its
    promise settles in a later event. *)
Definition fetch (id : nat) (r : Request) (w : World) : World :=
  {| sess := sess w; streamRef := streamRef w;
     openStreams := openStreams w; cameraRequests := cameraRequests w;
     pendingBlobs := pendingBlobs w;
     intervals := intervals w; nextInterval := nextInterval w;
     inflight := <[id := r]> (inflight w); objectURLs := objectURLs w;
     nextURL := nextURL w; cleared := cleared w |}.

Definition fetch_settled (id : nat) (w : World) : World :=
  {| sess := sess w; streamRef := streamRef w;
     openStreams := openStreams w; cameraRequests := cameraRequests w;
     pendingBlobs := pendingBlobs w;
     intervals := intervals w; nextInterval := nextInterval w;
     inflight := delete id (inflight w); objectURLs := objectURLs w;
     nextURL := nextURL w; cleared := cleared w |}.

(** ** Camera (lines 35-63) *)

(** How the awaits of [startCamera] end: [getUserMedia] rejects
    (permission denied, no device), or it resolves with a stream and
    [video.play()] resolves or rejects. *)
Inductive CameraOutcome :=
| Denied
| Granted (stream : nat) (played : bool).

Definition camera_error : string :=
  "Unable to access camera. Please allow permissions or upload an image instead.".

(** [startCamera] up to its first [await]. *)
Definition startCamera (w : World) : World :=
  let w := setError "" w in
  {| sess := sess w; streamRef := streamRef w;
     openStreams := openStreams w;
     cameraRequests := S (cameraRequests w);
     pendingBlobs := pendingBlobs w;
     intervals := intervals w; nextInterval := nextInterval w;
     inflight := inflight w; objectURLs := objectURLs w;
     nextURL := nextURL w; cleared := cleared w |}.

(** [startCamera] after its awaits: [streamRef.current = stream], or the
    [catch] branch. *)
Definition startCamera_settle (o : CameraOutcome) (w : World) : World :=
  let w :=
    {| sess := sess w; streamRef := streamRef w;
       openStreams :=
         match o with
         | Granted s _ => {[s]} ∪ openStreams w
         | Denied => openStreams w
         end;
       cameraRequests := pred (cameraRequests w);
       pendingBlobs := pendingBlobs w;
       intervals := intervals w; nextInterval := nextInterval w;
       inflight := inflight w; objectURLs := objectURLs w;
       nextURL := nextURL w; cleared := cleared w |} in
  match o with
  | Granted s true =>
      {| sess := sess w; streamRef := Some s;
         openStreams := openStreams w;
         cameraRequests := cameraRequests w;
     pendingBlobs := pendingBlobs w;
         intervals := intervals w; nextInterval := nextInterval w;
         inflight := inflight w; objectURLs := objectURLs w;
         nextURL := nextURL w; cleared := cleared w |}
  | Granted _ false | Denied => setError camera_error w
  end.

Definition stopCamera (w : World) : World :=
  match streamRef w with
  | Some s =>
      {| sess := sess w; streamRef := None;
         openStreams := openStreams w ∖ {[s]};
         cameraRequests := cameraRequests w;
     pendingBlobs := pendingBlobs w;
         intervals := intervals w; nextInterval := nextInterval w;
         inflight := inflight w; objectURLs := objectURLs w;
         nextURL := nextURL w; cleared := cleared w |}
  | None => w
  end.

(** The effect with dependency [[mode]] (lines 35-42): it runs after a
    render in which [mode] differs from the previous render. *)
Definition modeEffect (before : Mode) (w : World) : World :=
  if decide (mode w = before) then w
  else match mode w with
       | MCamera => startCamera w
       | _ => stopCamera w
       end.

(** ** Double arithmetic

    JavaScript numbers are IEEE 754 binary64.  A finite double is
    modelled by the rational it denotes; an arithmetic operation is the
    exact operation followed by [round64], rounding to the nearest
    double, ties to even.  Overflow to infinity is left out: every
    magnitude here stays far below 2^1024. *)

Definition pow2 (e : Z) : Q := (2 ^ e)%Q.

(** The integer [l] with [2^l <= x < 2^(l+1)], for [x > 0]. *)
Definition ilog2 (x : Q) : Z :=
  let l := (Z.log2 (Qnum x) - Z.log2 (Zpos (Qden x)))%Z in
  if Qle_bool (pow2 l) x then l else (l - 1)%Z.

(** Rounding to the nearest integer, ties to the even one. *)
Definition rne (x : Q) : Z :=
  let f := Qfloor x in
  match Qcompare (x - inject_Z f) (1 # 2) with
  | Lt => f
  | Gt => (f + 1)%Z
  | Eq => if Z.even f then f else (f + 1)%Z
  end.

(** The exponent of the unit in the last place around [x]: 53 bits of
    mantissa, and no finer than the subnormal spacing [2^-1074]. *)
Definition ulp_exp (x : Q) : Z := Z.max (ilog2 x - 52) (-1074).

Definition round_pos (x : Q) : Q :=
  (inject_Z (rne (x / pow2 (ulp_exp x))) * pow2 (ulp_exp x))%Q.

Definition round64 (x : Q) : Q :=
  match Qcompare x 0 with
  | Eq => 0%Q
  | Gt => round_pos x
  | Lt => (- round_pos (- x))%Q
  end.

(** The non-negative doubles: a mantissa below [2^53] at an exponent
    from [-1074] on. *)
Definition is_double (x : Q) : Prop :=
  exists m e : Z, (0 <= m < 2 ^ 53)%Z /\ (-1074 <= e)%Z /\
                  (x == inject_Z m * pow2 e)%Q.

(** ** Scanning (lines 65-102) *)

(** The updater the interval passes to [setProgress]; [r] is the double
    [Math.random()] returns, in [0, 1).  Product and sum are double
    operations. *)
Definition tick (id : nat) (r : Q) (w : World) : World :=
  if Qle_bool 96 (progress w)
  then setProgress 96 (clearInterval ByTick id w)
  else setProgress (round64 (progress w + round64 (r * 7))) w.

(** [beginScanUI] returns the closure [() => clearInterval(id)],
    represented by [id]. *)
Definition beginScanUI (w : World) : World * nat :=
  let w := setMode MScanning w in
  let w := setProgress 0 w in
  setInterval w.

Definition endProgress (id : nat) : World -> World :=
  clearInterval ByHandle id.

(** How the awaits of [uploadToAPI] end: [fetch] rejects, or it resolves
    with a status and a body on which [resp.json()] rejects with a
    message or resolves with a value. *)
Inductive FetchOutcome :=
| NetworkError (message : string)
| Responded (status : nat) (body : string + json).

(** [resp.ok]: the status is in the range 200-299. *)
Definition ok (status : nat) : bool :=
  (200 <=? status)%nat && (status <=? 299)%nat.

Definition show_nat (n : nat) : string :=
  NilEmpty.string_of_uint (Nat.to_uint n).

(** The [try] block after [fetch]: the message of the error thrown, or
    the parsed body (lines 85-91). *)
Definition attempt (o : FetchOutcome) : string + json :=
  match o with
  | NetworkError message => inl message
  | Responded status body =>
      if negb (ok status)
      then inl ("Scan failed (" ++ show_nat status ++ ")")
      else body
  end.

(** JavaScript's [a || b] on strings. *)
Definition or_else (a b : string) : string :=
  if String.eqb a "" then b else a.

(** [uploadToAPI] up to its first [await]. *)
Definition uploadToAPI (blob : Blob) (name : string) (w : World) : World :=
  let '(w, id) := beginScanUI w in
  let w := setError "" w in
  fetch id {| req_image := blob; req_name := name |} w.

(** [uploadToAPI] after its awaits, for the call whose closure
    [endProgress] holds [id]: the rest of [try], or [catch], then
    [finally]. *)
Definition uploadToAPI_settle (id : nat) (o : FetchOutcome) (w : World) : World :=
  let w := fetch_settled id w in
  let w :=
    match attempt o with
    | inr data =>
        let w := setResult data w in
        let w := setProgress 100 w in
        setMode MResult w
    | inl message =>
        let w := setError (or_else message "Something went wrong while scanning") w in
        setMode MIdle w
    end in
  endProgress id w.

(** ** Acquisition and reset (lines 104-167) *)

Definition onPickFile (f : option File) (w : World) : World :=
  match f with
  | None => w
  | Some f =>
      let w := setFileName (file_name f) w in
      let '(w, u) := createObjectURL w in
      let w := setPreviewURL (BlobURL u) w in
      uploadToAPI (file_bytes f) (file_name f) w
  end.

Definition onDrop (f : option File) (w : World) : World :=
  match f with
  | None => w
  | Some f =>
      let w := setFileName (file_name f) w in
      let '(w, u) := createObjectURL w in
      let w := setPreviewURL (BlobURL u) w in
      uploadToAPI (file_bytes f) (file_name f) w
  end.

(** [onCapture] (lines 123-141) up to its call of [canvas.toBlob]: the
    frame is drawn on the canvas and its encoding is requested.  The
    video element is always mounted, so [videoRef.current] is set.  No
    state cell is written here; the callback runs in a later task. *)
Definition onCapture (w : World) : World :=
  {| sess := sess w; streamRef := streamRef w;
     openStreams := openStreams w; cameraRequests := cameraRequests w;
     pendingBlobs := S (pendingBlobs w);
     intervals := intervals w; nextInterval := nextInterval w;
     inflight := inflight w; objectURLs := objectURLs w;
     nextURL := nextURL w; cleared := cleared w |}.

(** The callback [onCapture] hands to [canvas.toBlob] (lines 133-140);
    [blob] is what the canvas has encoded, [None] for [null].  It tests
    no mode. *)
Definition onCapture_toBlob (blob : option Blob) (w : World) : World :=
  let w :=
    {| sess := sess w; streamRef := streamRef w;
       openStreams := openStreams w; cameraRequests := cameraRequests w;
       pendingBlobs := pred (pendingBlobs w);
       intervals := intervals w; nextInterval := nextInterval w;
       inflight := inflight w; objectURLs := objectURLs w;
       nextURL := nextURL w; cleared := cleared w |} in
  match blob with
  | None => w
  | Some blob =>
      let '(w, u) := createObjectURL w in
      let w := setPreviewURL (BlobURL u) w in
      let w := setFileName "camera-capture.png" w in
      let w := setMode MCamera w in
      uploadToAPI blob "camera-capture.png" w
  end.

Definition resetAll (w : World) : World :=
  let w := setMode MIdle w in
  let w := setResult JNull w in
  let w := setProgress 0 w in
  let w := setError "" w in
  let w := setPreviewURL NoURL w in
  setFileName "" w.

(** [downloadReport]: the only caller of [URL.revokeObjectURL], on the
    URL of the report it has just created. *)
Definition downloadReport (w : World) : World :=
  if negb (truthy (result w)) then w
  else let '(w, u) := createObjectURL w in revokeObjectURL u w.

(** ** The Scanning component (lines 376-392) *)

(** [Math.round]: the closest integer, ties towards +infinity. *)
Definition Math_round (x : Q) : Z := Qfloor (x + (1 # 2))%Q.

Definition Math_min (a b : Z) : Z := if (b <? a)%Z then b else a.

(** The percentage [Scanning] prints and uses as the bar width. *)
Definition Scanning (progress : Q) : Z :=
  Math_min 100 (Math_round progress).

(** ** The event loop *)

Inductive Event :=
| EPickFile (f : option File)
| EDrop (f : option File)
| EActivateCamera
| ECloseCamera
| ECapture
| EToBlob (blob : option Blob)
| EResetAll
| EDownloadReport
| ECameraSettled (o : CameraOutcome)
| ETick (id : nat) (r : Q)
| EResponse (id : nat) (o : FetchOutcome).

(** One task of the event loop: the handler, then the mode effect of the
    render that follows. *)
Definition handle (e : Event) (w : World) : World :=
  let before := mode w in
  let w :=
    match e with
    | EPickFile f => onPickFile f w
    | EDrop f => onDrop f w
    | EActivateCamera => setMode MCamera w
    | ECloseCamera => setMode MIdle w
    | ECapture => onCapture w
    | EToBlob blob => onCapture_toBlob blob w
    | EResetAll => resetAll w
    | EDownloadReport => downloadReport w
    | ECameraSettled o => startCamera_settle o w
    | ETick id r => tick id r w
    | EResponse id o => uploadToAPI_settle id o w
    end in
  modeEffect before w.

(** What the page and the browser can deliver in a world: controls that
    are rendered (lines 195, 212, 248-255, 319-366), timers that are
    scheduled, promises and callbacks that are pending. *)
Definition enabled (w : World) (e : Event) : Prop :=
  match e with
  | EPickFile _ | EDrop _ | EActivateCamera => True
  | ECloseCamera | ECapture => mode w = MCamera
  | EToBlob _ => (0 < pendingBlobs w)%nat
  | EResetAll | EDownloadReport =>
      mode w = MResult /\ truthy (result w) = true
  | ECameraSettled _ => (0 < cameraRequests w)%nat
  | ETick id r => id ∈ intervals w /\ is_double r /\ (r < 1)%Q
  | EResponse id _ => id ∈ dom (inflight w)
  end.

Definition run (tr : list Event) (w : World) : World :=
  fold_left (fun w e => handle e w) tr w.

(** Every event of the trace is enabled when its turn comes. *)
Fixpoint feasible (tr : list Event) (w : World) : Prop :=
  match tr with
  | [] => True
  | e :: tr => enabled w e /\ feasible tr (handle e w)
  end.

Inductive reachable : World -> Prop :=
| reach_init : reachable init
| reach_step w e : reachable w -> enabled w e -> reachable (handle e w).

(** A decision procedure for [enabled], to check concrete traces by
    computation. *)
Definition enabledb (w : World) (e : Event) : bool :=
  match e with
  | EPickFile _ | EDrop _ | EActivateCamera => true
  | ECloseCamera | ECapture => bool_decide (mode w = MCamera)
  | EToBlob _ => (0 <? pendingBlobs w)%nat
  | EResetAll | EDownloadReport =>
      bool_decide (mode w = MResult) && truthy (result w)
  | ECameraSettled _ => (0 <? cameraRequests w)%nat
  | ETick id r =>
      bool_decide (id ∈ intervals w) &&
      (Qle_bool 0 r && Qeq_bool (round64 r) r) && negb (Qle_bool 1 r)
  | EResponse id _ => bool_decide (id ∈ dom (inflight w))
  end.

Fixpoint feasibleb (tr : list Event) (w : World) : bool :=
  match tr with
  | [] => true
  | e :: tr => enabledb w e && feasibleb tr (handle e w)
  end.

(** ** Sample inputs *)

Definition leaf : File := {| file_name := "leaf.png"; file_bytes := [] |}.
Definition can : File := {| file_name := "can.jpg"; file_bytes := [] |}.

(** The body of the scenario in the product notes: an organic leaf. *)
Definition organic : json :=
  JObj [("detected", JBool true); ("label", JStr "Organic");
        ("confidence", JNum (87 # 100));
        ("suggestions", JArr [JStr "Compost this item"])].

Definition metal : json :=
  JObj [("detected", JBool true); ("label", JStr "Metal");
        ("confidence", JNum (1 # 2)); ("suggestions", JArr [])].

(** ** Predicates used in the statements *)

(** What a started submission leaves behind, seen from the world [w] in
    which the acquisition arrived. *)
Definition started (w w' : World) (name : string) (bytes : Blob) : Prop :=
  mode w' = MScanning /\ progress w' = 0%Q /\ fileName w' = name /\
  previewURL w' = BlobURL (nextURL w) /\
  intervals w' = {[nextInterval w]} ∪ intervals w /\
  nextInterval w' = S (nextInterval w) /\
  inflight w' =
    <[nextInterval w := {| req_image := bytes; req_name := name |}]> (inflight w).

(** The endings of [startCamera] that reach its [catch] branch. *)
Definition camera_failed (o : CameraOutcome) : bool :=
  match o with
  | Granted _ true => false
  | Granted _ false | Denied => true
  end.

(** How often [clearInterval(id)] has been called from the call site
    [who]. *)
Definition calls (who : Canceller) (id : nat) (w : World) : nat :=
  count_occ (decide_rel (=)) (cleared w) (id, who).

(** The four ways a task changes the timers and the requests. *)
Inductive timer_step (w w' : World) : Prop :=
| ts_same :
    intervals w' = intervals w -> nextInterval w' = nextInterval w ->
    inflight w' = inflight w -> cleared w' = cleared w ->
    timer_step w w'
| ts_start r :
    intervals w' = {[nextInterval w]} ∪ intervals w ->
    nextInterval w' = S (nextInterval w) ->
    inflight w' = <[nextInterval w := r]> (inflight w) ->
    cleared w' = cleared w ->
    timer_step w w'
| ts_tick id :
    id ∈ intervals w ->
    intervals w' = intervals w ∖ {[id]} ->
    nextInterval w' = nextInterval w ->
    inflight w' = inflight w ->
    cleared w' = (id, ByTick) :: cleared w ->
    timer_step w w'
| ts_settle id :
    id ∈ dom (inflight w) ->
    intervals w' = intervals w ∖ {[id]} ->
    nextInterval w' = nextInterval w ->
    inflight w' = delete id (inflight w) ->
    cleared w' = (id, ByHandle) :: cleared w ->
    timer_step w w'.

(** The bookkeeping of timers that every reachable world satisfies. *)
Record timers_ok (w : World) : Prop := {
  tk_scheduled : forall id, id ∈ intervals w -> id ∈ dom (inflight w);
  tk_issued : forall id, id ∈ dom (inflight w) -> (id < nextInterval w)%nat;
  tk_pending : forall id, id ∈ dom (inflight w) -> calls ByHandle id w = 0%nat;
  tk_ended : forall id, (id < nextInterval w)%nat ->
    id ∉ dom (inflight w) -> calls ByHandle id w = 1%nat;
  tk_ticking : forall id, id ∈ intervals w -> calls ByTick id w = 0%nat;
  tk_tick_once : forall id, (calls ByTick id w <= 1)%nat;
  tk_fresh : forall id who, (nextInterval w <= id)%nat ->
    calls who id w = 0%nat
}.

(** The request an event sends, if it is an acquisition with a payload:
    the arguments [onPickFile], [onDrop] and the callback of
    [onCapture] pass to [uploadToAPI]. *)
Definition acquisition (e : Event) : option Request :=
  match e with
  | EPickFile (Some f) | EDrop (Some f) =>
      Some {| req_image := file_bytes f; req_name := file_name f |}
  | EToBlob (Some blob) =>
      Some {| req_image := blob; req_name := "camera-capture.png" |}
  | _ => None
  end.

Definition is_response (e : Event) : bool :=
  match e with EResponse _ _ => true | _ => false end.

(** ** Class names and the result modal (lines 4-6, 169, 341-354) *)

(** An argument of [classNames] as the call sites pass them: a string,
    or [false] from [cond && 'chip-active']. *)
Inductive ClassArg := CStr (s : string) | CFalse.

(** [Boolean(x)]: [false] and the empty string are falsy. *)
Definition Boolean (a : ClassArg) : bool :=
  match a with
  | CStr s => negb (String.eqb s "")
  | CFalse => false
  end.

(** The string [join] makes of an element. *)
Definition toString (a : ClassArg) : string :=
  match a with
  | CStr s => s
  | CFalse => "false"
  end.

(** [xs.filter(Boolean).join(' ')]. *)
Definition classNames (xs : list ClassArg) : string :=
  String.concat " " (map toString (List.filter Boolean xs)).

Definition labels : list string :=
  ["Organic"; "Plastic"; "Metal"; "Paper"; "Other"].

(** [v[k]] on a parsed body, [None] for [undefined].  The fields of an
    object are listed in source order; a repeated key has its last
    value, as [JSON.parse] gives it. *)
Definition get_field (k : string) (v : json) : option json :=
  match v with
  | JObj fields =>
      fold_left (fun acc kv => if String.eqb (fst kv) k then Some (snd kv)
                               else acc) fields None
  | _ => None
  end.

(** [l === v] for a string [l]. *)
Definition strict_eq_string (l : string) (v : option json) : bool :=
  match v with
  | Some (JStr s) => String.eqb l s
  | _ => false
  end.

(** The class of the chip of label [l] (line 352). *)
Definition chip_class (l : string) (result : json) : string :=
  classNames [CStr "chip";
              if strict_eq_string l (get_field "label" result)
              then CStr "chip-active" else CFalse].

Definition chips (result : json) : list (string * string) :=
  map (fun l => (l, chip_class l result)) labels.

Definition active_chips (result : json) : list (string * string) :=
  List.filter (fun c => String.eqb (snd c) "chip chip-active") (chips result).


(** ** The base URL of the endpoint (line 8) *)

(** [s.slice(n)]. *)
Fixpoint slice (n : nat) (s : string) : string :=
  match n, s with
  | O, _ => s
  | S n, String _ s => slice n s
  | S _, EmptyString => EmptyString
  end.

(** [s.replace(pat, rep)] for a string pattern and a replacement
    without [$]: the first occurrence of [pat] is replaced. *)
Fixpoint replace (pat rep s : string) {struct s} : string :=
  if String.prefix pat s then rep ++ slice (String.length pat) s
  else match s with
       | EmptyString => EmptyString
       | String c s => String c (replace pat rep s)
       end.

(** [env] is [import.meta.env.VITE_BACKEND_URL], [None] when it is not
    defined; [origin] is [window.location.origin], [None] when there is
    no [window]. *)
Definition API_BASE (env origin : option string) : string :=
  let fallback :=
    match origin with
    | Some o => replace "3000" "8000" o
    | None => ""
    end in
  match env with
  | Some e => if String.eqb e "" then fallback else e
  | None => fallback
  end.

(** ** Basic facts *)

(** *** Doubles *)

Lemma pow2_pos e : (0 < pow2 e)%Q.
Proof. apply Qpower_0_lt. reflexivity. Qed.

Lemma pow2_add a b : (pow2 (a + b) == pow2 a * pow2 b)%Q.
Proof. apply Qpower_plus. discriminate. Qed.

Lemma pow2_le a b : (a <= b)%Z -> (pow2 a <= pow2 b)%Q.
Proof. intros H. apply Qpower_le_compat_l; [done | discriminate]. Qed.

Lemma pow2_Z n : (0 <= n)%Z -> (pow2 n == inject_Z (2 ^ n))%Q.
Proof. intros H. unfold pow2. by rewrite Zpower_Qpower. Qed.

Lemma pow2_succ e : (pow2 (e + 1) == 2 * pow2 e)%Q.
Proof. rewrite pow2_add. change (pow2 1) with 2%Q. ring. Qed.

Lemma Qmake_mul (x : Q) :
  (x * inject_Z (Zpos (Qden x)) == inject_Z (Qnum x))%Q.
Proof.
  destruct x as [n d]. unfold Qeq, Qmult, inject_Z. simpl. lia.
Qed.

Lemma ilog2_spec (x : Q) :
  (0 < x)%Q ->
  (pow2 (ilog2 x) <= x)%Q /\ (x < pow2 (ilog2 x + 1))%Q.
Proof.
  intros Hx. unfold ilog2.
  set (a := Z.log2 (Qnum x)). set (b := Z.log2 (Zpos (Qden x))).
  assert (Hn : (0 < Qnum x)%Z).
  { destruct x as [n d]. unfold Qlt in Hx. simpl in *. lia. }
  destruct (Z.log2_spec (Qnum x) Hn) as [Ha1 Ha2].
  destruct (Z.log2_spec (Zpos (Qden x)) ltac:(lia)) as [Hb1 Hb2].
  fold a in Ha1, Ha2. fold b in Hb1, Hb2.
  assert (Ha0 : (0 <= a)%Z) by apply Z.log2_nonneg.
  assert (Hb0 : (0 <= b)%Z) by apply Z.log2_nonneg.
  pose proof (Qmake_mul x) as Hxd.
  set (N := inject_Z (Qnum x)) in *. set (D := inject_Z (Zpos (Qden x))) in *.
  assert (HA1 : (pow2 a <= N)%Q).
  { rewrite pow2_Z by done. unfold N. by rewrite <- Zle_Qle. }
  assert (HA2 : (N < 2 * pow2 a)%Q).
  { rewrite <- pow2_succ, pow2_Z by lia. unfold N. rewrite <- Zlt_Qlt.
    by rewrite <- Z.add_1_r in Ha2. }
  assert (HB1 : (pow2 b <= D)%Q).
  { rewrite pow2_Z by done. unfold D. by rewrite <- Zle_Qle. }
  assert (HB2 : (D < 2 * pow2 b)%Q).
  { rewrite <- pow2_succ, pow2_Z by lia. unfold D. rewrite <- Zlt_Qlt.
    by rewrite <- Z.add_1_r in Hb2. }
  assert (HP : (pow2 a == pow2 (a - b) * pow2 b)%Q).
  { rewrite <- pow2_add. by replace (a - b + b)%Z with a by lia. }
  pose proof (pow2_pos (a - b)) as HP0. pose proof (pow2_pos b) as HB0.
  set (P := pow2 (a - b)) in *. set (B := pow2 b) in *.
  set (A := pow2 a) in *.
  assert (Hup : (x < 2 * P)%Q) by nra.
  assert (Hlo : (P < 2 * x)%Q) by nra.
  destruct (Qle_bool P x) eqn:E.
  - apply Qle_bool_iff in E. split; [done |]. by rewrite pow2_succ.
  - assert (HxP : (x < P)%Q).
    { apply Qnot_le_lt. intros H. apply Qle_bool_iff in H. congruence. }
    replace (a - b - 1 + 1)%Z with (a - b)%Z by lia. split; [| done].
    assert (Hh : (P == 2 * pow2 (a - b - 1))%Q).
    { unfold P. rewrite <- pow2_succ. by replace (a - b - 1 + 1)%Z with (a - b)%Z by lia. }
    lra.
Qed.

(** [rne] never crosses an integer. *)
Lemma rne_bounds (x : Q) :
  (Qfloor x <= rne x <= Qfloor x + 1)%Z.
Proof.
  unfold rne. destruct (Qcompare _ _); [destruct (Z.even _) | |]; lia.
Qed.

Lemma rne_ge (x : Q) (k : Z) : (inject_Z k <= x)%Q -> (k <= rne x)%Z.
Proof.
  intros H. apply Qfloor_resp_le in H. rewrite Qfloor_Z in H.
  pose proof (rne_bounds x). lia.
Qed.

Lemma rne_le (x : Q) (k : Z) : (x <= inject_Z k)%Q -> (rne x <= k)%Z.
Proof.
  intros H. pose proof (Qfloor_resp_le _ _ H) as Hf. rewrite Qfloor_Z in Hf.
  destruct (Z.eq_dec (Qfloor x) k) as [E | E].
  - unfold rne. rewrite E.
    destruct (Qcompare_spec (x - inject_Z k) (1 # 2)); [lra | lia | lra].
  - pose proof (rne_bounds x). lia.
Qed.

Lemma is_double_nonneg x : is_double x -> (0 <= x)%Q.
Proof.
  intros (m & e & [Hm _] & _ & ->). pose proof (pow2_pos e).
  assert ((0 <= inject_Z m)%Q) by (by rewrite <- (Zle_Qle 0)).
  nra.
Qed.

Section Rounding.
Variable x : Q.
Hypothesis Hx : (0 < x)%Q.

Let u := pow2 (ulp_exp x).

Lemma ulp_pos : (0 < u)%Q.
Proof. apply pow2_pos. Qed.

Lemma scaled_lt : (x / u < inject_Z (2 ^ 53))%Q.
Proof.
  destruct (ilog2_spec x Hx) as [_ H2].
  assert (Hle : (pow2 (ilog2 x + 1) <= pow2 (ulp_exp x + 53))%Q).
  { apply pow2_le. unfold ulp_exp. lia. }
  assert (Hs : (pow2 (ulp_exp x + 53) == inject_Z (2 ^ 53) * u)%Q).
  { rewrite <- pow2_Z by lia. unfold u. rewrite <- pow2_add.
    by replace (53 + ulp_exp x)%Z with (ulp_exp x + 53)%Z by lia. }
  pose proof ulp_pos as Hu.
  apply Qlt_shift_div_r; [done |]. lra.
Qed.

(** A double below [x] stays below the rounded value. *)
Lemma round_pos_ge (d : Q) :
  is_double d -> (d <= x)%Q -> (d <= round_pos x)%Q.
Proof.
  intros (m & e & [Hm0 Hm1] & He & Hd) Hdx.
  unfold round_pos. fold u. pose proof ulp_pos as Hu.
  destruct (Z_le_gt_dec (ulp_exp x) e) as [Hee | Hee].
  - (* [d] is on the grid of [x] *)
    assert (Hg : (pow2 e == inject_Z (2 ^ (e - ulp_exp x)) * u)%Q).
    { rewrite <- pow2_Z by lia. unfold u. rewrite <- pow2_add.
      by replace (e - ulp_exp x + ulp_exp x)%Z with e by lia. }
    assert (Hj : (d == inject_Z (m * 2 ^ (e - ulp_exp x)) * u)%Q).
    { rewrite Hd, Hg, inject_Z_mult. ring. }
    assert (Hk : (m * 2 ^ (e - ulp_exp x) <= rne (x / u))%Z).
    { apply rne_ge. apply Qle_shift_div_l; [done |]. by rewrite <- Hj. }
    rewrite Hj. apply Qmult_le_compat_r; [| lra]. by rewrite <- Zle_Qle.
  - (* [d] is below the binade of [x] *)
    assert (Hul : ulp_exp x = (ilog2 x - 52)%Z) by (unfold ulp_exp in *; lia).
    destruct (ilog2_spec x Hx) as [H1 _].
    assert (Hb : (pow2 (ilog2 x) == inject_Z (2 ^ 52) * u)%Q).
    { rewrite <- pow2_Z by lia. unfold u. rewrite <- pow2_add.
      rewrite Hul. by replace (52 + (ilog2 x - 52))%Z with (ilog2 x) by lia. }
    assert (Hk : (2 ^ 52 <= rne (x / u))%Z).
    { apply rne_ge. apply Qle_shift_div_l; [done |]. by rewrite <- Hb. }
    assert (Hde : (pow2 e <= pow2 (ulp_exp x - 1))%Q) by (apply pow2_le; lia).
    assert (Hu2 : (u == 2 * pow2 (ulp_exp x - 1))%Q).
    { unfold u. rewrite <- pow2_succ.
      by replace (ulp_exp x - 1 + 1)%Z with (ulp_exp x) by lia. }
    assert (Hm : (inject_Z m <= inject_Z (2 ^ 53))%Q)
      by (rewrite <- Zle_Qle; lia).
    assert (Hm' : (0 <= inject_Z m)%Q) by (by rewrite <- (Zle_Qle 0)).
    change (inject_Z (2 ^ 53)) with (2 * inject_Z (2 ^ 52))%Q in Hm.
    pose proof (pow2_pos e) as He0.
    rewrite Zle_Qle in Hk.
    set (K := inject_Z (rne (x / u))) in *.
    set (M := inject_Z m) in *. set (T := inject_Z (2 ^ 52)) in *.
    assert (HT : (0 < T)%Q) by reflexivity.
    rewrite Hd.
    set (V := pow2 (ulp_exp x - 1)) in *. set (E := pow2 e) in *.
    assert (HV : (0 < V)%Q) by apply pow2_pos.
    assert (H1' : (M * E <= M * V)%Q) by nra.
    assert (H2' : (M * V <= T * u)%Q) by nra.
    assert (H3' : (T * u <= K * u)%Q) by nra.
    lra.
Qed.

(** A double above [x] stays above the rounded value. *)
Lemma round_pos_le (d : Q) :
  is_double d -> (x <= d)%Q -> (round_pos x <= d)%Q.
Proof.
  intros (m & e & [Hm0 Hm1] & He & Hd) Hdx.
  unfold round_pos. fold u. pose proof ulp_pos as Hu.
  destruct (Z_le_gt_dec (ulp_exp x) e) as [Hee | Hee].
  - assert (Hg : (pow2 e == inject_Z (2 ^ (e - ulp_exp x)) * u)%Q).
    { rewrite <- pow2_Z by lia. unfold u. rewrite <- pow2_add.
      by replace (e - ulp_exp x + ulp_exp x)%Z with e by lia. }
    assert (Hj : (d == inject_Z (m * 2 ^ (e - ulp_exp x)) * u)%Q).
    { rewrite Hd, Hg, inject_Z_mult. ring. }
    assert (Hk : (rne (x / u) <= m * 2 ^ (e - ulp_exp x))%Z).
    { apply rne_le. apply Qle_shift_div_r; [done |]. by rewrite <- Hj. }
    rewrite Hj. apply Qmult_le_compat_r; [| lra]. by rewrite <- Zle_Qle.
  - exfalso.
    assert (Hul : ulp_exp x = (ilog2 x - 52)%Z) by (unfold ulp_exp in *; lia).
    destruct (ilog2_spec x Hx) as [H1 _].
    assert (Hb : (pow2 (ilog2 x) == inject_Z (2 ^ 52) * u)%Q).
    { rewrite <- pow2_Z by lia. unfold u. rewrite <- pow2_add.
      rewrite Hul. by replace (52 + (ilog2 x - 52))%Z with (ilog2 x) by lia. }
    assert (Hde : (pow2 e <= pow2 (ulp_exp x - 1))%Q) by (apply pow2_le; lia).
    assert (Hu2 : (u == 2 * pow2 (ulp_exp x - 1))%Q).
    { unfold u. rewrite <- pow2_succ.
      by replace (ulp_exp x - 1 + 1)%Z with (ulp_exp x) by lia. }
    assert (Hm : (inject_Z m <= inject_Z (2 ^ 53 - 1))%Q)
      by (rewrite <- Zle_Qle; lia).
    assert (Hm' : (0 <= inject_Z m)%Q) by (by rewrite <- (Zle_Qle 0)).
    change (inject_Z (2 ^ 53 - 1)) with (2 * inject_Z (2 ^ 52) - 1)%Q in Hm.
    pose proof (pow2_pos e) as He0.
    set (M := inject_Z m) in *. set (T := inject_Z (2 ^ 52)) in *.
    assert (HT : (0 < T)%Q) by reflexivity.
    set (V := pow2 (ulp_exp x - 1)) in *. set (E := pow2 e) in *.
    assert (HV : (0 < V)%Q) by apply pow2_pos.
    assert (H1' : (M * E <= M * V)%Q) by nra.
    assert (H2' : (M * V < T * u)%Q) by nra.
    lra.
Qed.

Lemma round_pos_double : is_double (round_pos x).
Proof.
  pose proof ulp_pos as Hu. pose proof scaled_lt as Hs.
  assert (H0 : (0 <= rne (x / u))%Z).
  { apply rne_ge. apply Qle_shift_div_l; [done |].
    change (0 * u <= x)%Q. lra. }
  assert (H1 : (rne (x / u) <= 2 ^ 53)%Z)
    by (apply rne_le; apply Qlt_le_weak, Hs).
  assert (He : (-1074 <= ulp_exp x)%Z) by (unfold ulp_exp; lia).
  unfold round_pos. fold u.
  destruct (Z.eq_dec (rne (x / u)) (2 ^ 53)%Z) as [E | E].
  - exists (2 ^ 52)%Z, (ulp_exp x + 1)%Z.
    split; [lia |]. split; [lia |].
    rewrite E, pow2_succ. fold u.
    change (inject_Z (2 ^ 53)) with (2 * inject_Z (2 ^ 52))%Q. ring.
  - exists (rne (x / u)), (ulp_exp x). split; [lia |]. split; [done |].
    reflexivity.
Qed.
End Rounding.

(** ** Rounding a non-negative number *)

Lemma is_double_0 : is_double 0.
Proof. exists 0%Z, 0%Z. split; [lia |]. split; [lia |]. reflexivity. Qed.

Lemma round64_nonneg (x : Q) :
  (0 <= x)%Q ->
  is_double (round64 x) /\
  (forall d, is_double d -> (d <= x)%Q -> (d <= round64 x)%Q) /\
  (forall d, is_double d -> (x <= d)%Q -> (round64 x <= d)%Q).
Proof.
  intros Hx. unfold round64.
  destruct (Qcompare_spec x 0) as [E | E | E].
  - split; [apply is_double_0 |]. split.
    + intros d _ Hd. lra.
    + intros d Hd _. by apply is_double_nonneg.
  - lra.
  - split; [by apply round_pos_double |]. split.
    + intros d. by apply round_pos_ge.
    + intros d. by apply round_pos_le.
Qed.

(** A number that rounding leaves alone is a double. *)
Lemma round64_fixed (x : Q) :
  (0 <= x)%Q -> (round64 x == x)%Q -> is_double x.
Proof.
  intros Hx E. destruct (round64_nonneg x Hx) as [(m & e & Hm & He & Hd) _].
  exists m, e. split; [done |]. split; [done |]. by rewrite <- E.
Qed.

(** Below 96 the largest double is 96 - 2^-46. *)
Lemma double_below_96 (p : Q) :
  is_double p -> (p < 96)%Q -> (p <= 96 - pow2 (-46))%Q.
Proof.
  intros (m & e & [Hm0 Hm1] & He & Hd) Hp.
  pose proof (pow2_pos (-46)) as Hv. set (v := pow2 (-46)) in *.
  assert (H96 : (inject_Z (96 * 2 ^ 46) * v == 96)%Q) by reflexivity.
  destruct (Z_le_gt_dec (-46) e) as [Hee | Hee].
  - assert (Hg : (pow2 e == inject_Z (2 ^ (e + 46)) * v)%Q).
    { rewrite <- pow2_Z by lia. unfold v. rewrite <- pow2_add.
      by replace (e + 46 + -46)%Z with e by lia. }
    assert (Hj : (p == inject_Z (m * 2 ^ (e + 46)) * v)%Q).
    { rewrite Hd, Hg, inject_Z_mult. ring. }
    set (j := (m * 2 ^ (e + 46))%Z) in *.
    assert (Hlt : (j < 96 * 2 ^ 46)%Z).
    { apply Z.lt_nge. intros Hge. rewrite Zle_Qle in Hge.
      set (J := inject_Z j) in *. set (C := inject_Z (96 * 2 ^ 46)) in *.
      nra. }
    assert (Hle : (inject_Z j <= inject_Z (96 * 2 ^ 46) - 1)%Q).
    { change (inject_Z (96 * 2 ^ 46) - 1)%Q
        with (inject_Z (96 * 2 ^ 46) + inject_Z (-1))%Q.
      rewrite <- inject_Z_plus, <- Zle_Qle. lia. }
    set (J := inject_Z j) in *. set (C := inject_Z (96 * 2 ^ 46)) in *.
    nra.
  - assert (H64 : (inject_Z (2 ^ 52) * v == 64)%Q) by reflexivity.
    assert (Hde : (pow2 e <= pow2 (-47))%Q) by (apply pow2_le; lia).
    assert (Hv2 : (v == 2 * pow2 (-47))%Q) by reflexivity.
    assert (Hm : (inject_Z m <= inject_Z (2 ^ 53))%Q)
      by (rewrite <- Zle_Qle; lia).
    assert (Hm' : (0 <= inject_Z m)%Q) by (by rewrite <- (Zle_Qle 0)).
    change (inject_Z (2 ^ 53)) with (2 * inject_Z (2 ^ 52))%Q in Hm.
    pose proof (pow2_pos e) as He0.
    set (M := inject_Z m) in *. set (T := inject_Z (2 ^ 52)) in *.
    set (V := pow2 (-47)) in *. set (E := pow2 e) in *.
    assert (HV : (0 < V)%Q) by apply pow2_pos.
    assert (H1' : (M * E <= M * V)%Q) by nra.
    assert (H2' : (M * V <= T * v)%Q) by nra.
    assert (Hv1 : (v <= 1)%Q) by (vm_compute; discriminate).
    lra.
Qed.

(** [rne] is within one half of its argument. *)
Lemma rne_near (x : Q) :
  (x - (1 # 2) <= inject_Z (rne x))%Q /\ (inject_Z (rne x) <= x + (1 # 2))%Q.
Proof.
  pose proof (Qfloor_le x) as H1. pose proof (Qlt_floor x) as H2.
  rewrite inject_Z_plus in H2. change (inject_Z 1) with 1%Q in H2.
  unfold rne. destruct (Qcompare_spec (x - inject_Z (Qfloor x)) (1 # 2));
    [destruct (Z.even (Qfloor x)) | |];
    rewrite ?inject_Z_plus; change (inject_Z 1) with 1%Q; split; lra.
Qed.

(** The rounding error is at most half a unit in the last place. *)
Lemma round_pos_near (x : Q) :
  (x - pow2 (ulp_exp x) * (1 # 2) <= round_pos x)%Q /\
  (round_pos x <= x + pow2 (ulp_exp x) * (1 # 2))%Q.
Proof.
  pose proof (pow2_pos (ulp_exp x)) as Hu. unfold round_pos.
  set (u := pow2 (ulp_exp x)) in *.
  destruct (rne_near (x / u)) as [H1 H2].
  set (k := inject_Z (rne (x / u))) in *.
  assert (Hx : (x == x / u * u)%Q) by (field; lra).
  set (q := (x / u)%Q) in *. split; nra.
Qed.

(** The roundings a browser console shows: the double of 0.1, the sum
    [0.1 + 0.2], fifteen ticks of 0.1 from 0, and a tick of the largest
    draw from 70. *)
Lemma round64_examples :
  (round64 (1 # 10) == 3602879701896397 # 36028797018963968)%Q /\
  (round64 (round64 (1 # 10) + round64 (2 # 10)) ==
     5404319552844596 # 18014398509481984)%Q /\
  (fold_left (fun p _ => round64 (p + round64 (round64 (1 # 10) * 7)))
     (repeat tt 15) 0%Q == 5910974510923775 # 562949953421312)%Q /\
  (round64 (70 + round64 ((1 - pow2 (-53)) * 7)) == 77)%Q.
Proof. repeat split; vm_compute; reflexivity. Qed.

Lemma is_double_consts :
  is_double 1 /\ is_double 7 /\ is_double 96 /\ is_double 100 /\
  is_double (103 - pow2 (-46)).
Proof.
  repeat split.
  - exists 1%Z, 0%Z. split; [lia |]. split; [lia | reflexivity].
  - exists 7%Z, 0%Z. split; [lia |]. split; [lia | reflexivity].
  - exists 96%Z, 0%Z. split; [lia |]. split; [lia | reflexivity].
  - exists 100%Z, 0%Z. split; [lia |]. split; [lia | reflexivity].
  - exists (103 * 2 ^ 46 - 1)%Z, (-46)%Z.
    split; [lia |]. split; [lia | reflexivity].
Qed.

(** One tick below 96, in double arithmetic: the new progress is a
    double, not below the old one and at most [103 - 2^-46]. *)
Lemma tick_sum_bounds (p r : Q) :
  is_double p -> (p < 96)%Q -> is_double r -> (r < 1)%Q ->
  is_double (round64 (p + round64 (r * 7))) /\
  (p <= round64 (p + round64 (r * 7)))%Q /\
  (round64 (p + round64 (r * 7)) <= 103 - pow2 (-46))%Q.
Proof.
  intros Hp Hp96 Hr Hr1.
  destruct is_double_consts as (_ & H7 & _ & _ & H103).
  pose proof (is_double_nonneg p Hp) as Hp0.
  pose proof (is_double_nonneg r Hr) as Hr0.
  destruct (round64_nonneg (r * 7) ltac:(lra)) as (Hy & _ & Hyle).
  pose proof (is_double_nonneg _ Hy) as Hy0.
  pose proof (Hyle 7%Q H7 ltac:(lra)) as Hy7.
  pose proof (double_below_96 p Hp Hp96) as HpP.
  set (y := round64 (r * 7)) in *.
  destruct (round64_nonneg (p + y) ltac:(lra)) as (Hs & Hge & Hle).
  split; [done |]. split.
  - apply Hge; [done | lra].
  - apply Hle; [done | lra].
Qed.

(** *** Events *)

Lemma enabledb_sound w e : enabledb w e = true -> enabled w e.
Proof.
  destruct e; simpl; try done.
  - intros H. by apply bool_decide_eq_true in H.
  - intros H. by apply bool_decide_eq_true in H.
  - intros H. by apply Nat.ltb_lt in H.
  - intros [H1 H2]%andb_prop. by apply bool_decide_eq_true in H1.
  - intros [H1 H2]%andb_prop. by apply bool_decide_eq_true in H1.
  - intros H. by apply Nat.ltb_lt in H.
  - intros [[H1 [H2 H2']%andb_prop]%andb_prop H3]%andb_prop.
    apply bool_decide_eq_true in H1. apply Qle_bool_iff in H2.
    apply Qeq_bool_iff in H2'.
    split; [done | split; [by apply round64_fixed |]].
    apply Qnot_le_lt. intros Hle. apply Qle_bool_iff in Hle.
    rewrite Hle in H3. discriminate.
  - intros H. by apply bool_decide_eq_true in H.
Qed.

Lemma feasibleb_sound tr : forall w, feasibleb tr w = true -> feasible tr w.
Proof.
  induction tr as [|e tr IH]; intros w; simpl; [done |].
  intros [H1 H2]%andb_prop. split; [by apply enabledb_sound | by apply IH].
Qed.

Lemma feasible_reachable tr :
  forall w, reachable w -> feasible tr w -> reachable (run tr w).
Proof.
  induction tr as [|e tr IH]; intros w Hw; simpl; [done |].
  intros [He Htr]. apply IH; [by apply reach_step | done].
Qed.

Lemma run_app tr1 tr2 w : run (tr1 ++ tr2) w = run tr2 (run tr1 w).
Proof. unfold run. by rewrite fold_left_app. Qed.

(** The mode effect writes [error] (through [startCamera]) and the
    camera fields only. *)
Lemma modeEffect_same m (w : World) : mode w = m -> modeEffect m w = w.
Proof. intros H. unfold modeEffect. by rewrite decide_True. Qed.

Lemma modeEffect_mode m (w : World) : mode (modeEffect m w) = mode w.
Proof.
  unfold modeEffect. destruct (decide _); [done |].
  destruct (mode w) eqn:E; try done; unfold stopCamera;
    destruct (streamRef w); simpl; done.
Qed.

Lemma modeEffect_result m (w : World) : result (modeEffect m w) = result w.
Proof.
  unfold modeEffect. destruct (decide _); [done |].
  destruct (mode w); try done; unfold stopCamera;
    destruct (streamRef w); done.
Qed.

Lemma modeEffect_progress m (w : World) : progress (modeEffect m w) = progress w.
Proof.
  unfold modeEffect. destruct (decide _); [done |].
  destruct (mode w); try done; unfold stopCamera;
    destruct (streamRef w); done.
Qed.

Lemma modeEffect_timers m (w : World) :
  intervals (modeEffect m w) = intervals w /\
  nextInterval (modeEffect m w) = nextInterval w /\
  inflight (modeEffect m w) = inflight w /\
  cleared (modeEffect m w) = cleared w.
Proof.
  unfold modeEffect. destruct (decide _); [done |].
  destruct (mode w); try done; unfold stopCamera;
    destruct (streamRef w); done.
Qed.

Lemma modeEffect_urls m (w : World) :
  objectURLs (modeEffect m w) = objectURLs w /\
  nextURL (modeEffect m w) = nextURL w.
Proof.
  unfold modeEffect. destruct (decide _); [done |].
  destruct (mode w); try done; unfold stopCamera;
    destruct (streamRef w); done.
Qed.

(** When the mode is not 'camera' afterwards and no stream is held, the
    effect changes nothing. *)
Lemma modeEffect_no_camera m (w : World) :
  mode w <> MCamera -> streamRef w = None -> modeEffect m w = w.
Proof.
  intros Hm Hs. unfold modeEffect. destruct (decide _); [done |].
  unfold stopCamera. rewrite Hs. by destruct (mode w).
Qed.

Lemma or_else_nonempty a b : b <> "" -> or_else a b <> "".
Proof.
  intros Hb. unfold or_else. destruct (String.eqb_spec a ""); done.
Qed.

Lemma attempt_success o data :
  attempt o = inr data <->
  exists status, o = Responded status (inr data) /\ ok status = true.
Proof.
  split.
  - destruct o as [msg | status body]; simpl; [done |].
    destruct (ok status) eqn:Hok; simpl.
    + intros ->. by exists status.
    + discriminate.
  - intros (status & -> & Hok). simpl. by rewrite Hok.
Qed.

Lemma modeEffect_sess m (w : World) :
  mode w <> MCamera -> sess (modeEffect m w) = sess w.
Proof.
  intros Hm. unfold modeEffect. destruct (decide _); [done |].
  destruct (mode w); try done; unfold stopCamera;
    destruct (streamRef w); done.
Qed.

(** Which endings of the awaits make the [try] block throw, and with
    which message. *)
Lemma attempt_failure o message :
  attempt o = inl message <->
  o = NetworkError message \/
  (exists status body, o = Responded status body /\ ok status = false /\
     message = "Scan failed (" ++ show_nat status ++ ")") \/
  (exists status, o = Responded status (inl message) /\ ok status = true).
Proof.
  split.
  - destruct o as [msg | status body]; simpl.
    + intros [= ->]. by left.
    + destruct (ok status) eqn:Hok; simpl.
      * intros ->. right. right. by exists status.
      * intros [= <-]. right. left. by exists status, body.
  - intros [-> | [(status & body & -> & Hok & ->) | (status & -> & Hok)]];
      simpl; [done | by rewrite Hok | by rewrite Hok].
Qed.

(** ** Acquisition while scanning *)

(** C1, as the code has it: no handler looks at [mode].  While the mode
    is 'scanning', a picked or dropped file is accepted: it overwrites
    the file name and the preview, puts progress back to 0 and starts a
    further timer and a further request.  So does the [canvas.toBlob]
    callback of a capture whenever one is still pending.  Only an empty
    selection leaves the session as it is.  The one gate is on
    rendering: the Capture button exists in 'camera' mode only, so no
    new capture can be clicked while scanning. *)
Theorem C1_acquisition_not_guarded_by_mode (w : World) (f : File) :
  mode w = MScanning ->
  (enabled w (EPickFile (Some f)) /\
   started w (handle (EPickFile (Some f)) w) (file_name f) (file_bytes f)) /\
  (enabled w (EDrop (Some f)) /\
   started w (handle (EDrop (Some f)) w) (file_name f) (file_bytes f)) /\
  (forall blob,
     (enabled w (EToBlob (Some blob)) <-> (0 < pendingBlobs w)%nat) /\
     started w (handle (EToBlob (Some blob)) w) "camera-capture.png" blob) /\
  handle (EPickFile None) w = w /\
  handle (EDrop None) w = w /\
  ~ enabled w ECapture.
Proof.
  intros Hm.
  assert (Hpick : handle (EPickFile (Some f)) w = onPickFile (Some f) w).
  { unfold handle. rewrite Hm. by apply modeEffect_same. }
  assert (Hdrop : handle (EDrop (Some f)) w = onDrop (Some f) w).
  { unfold handle. rewrite Hm. by apply modeEffect_same. }
  assert (Hblob : forall blob,
    handle (EToBlob (Some blob)) w = onCapture_toBlob (Some blob) w).
  { intros blob. unfold handle. rewrite Hm. by apply modeEffect_same. }
  rewrite Hpick, Hdrop. split; [| split; [| split; [| split; [| split]]]].
  - split; [exact I |]. unfold started. simpl. tauto.
  - split; [exact I |]. unfold started. simpl. tauto.
  - intros blob. rewrite Hblob. split; [done |].
    unfold started. simpl. tauto.
  - unfold handle. by apply modeEffect_same.
  - unfold handle. by apply modeEffect_same.
  - simpl. rewrite Hm. discriminate.
Qed.

(** The Capture button is clicked twice in 'camera' mode; the first
    callback starts a submission, and the second callback arrives while
    that one is scanning. *)
Lemma C1_acquisition_not_guarded_by_mode_witness :
  let w := run [EActivateCamera; ECapture; ECapture; EToBlob (Some [])] init in
  mode w = MScanning /\
  enabled w (EToBlob (Some [])) /\
  started w (handle (EToBlob (Some [])) w) "camera-capture.png" [] /\
  started w (handle (EPickFile (Some can)) w) "can.jpg" [].
Proof.
  intros w.
  assert (Hm : mode w = MScanning) by reflexivity.
  destruct (C1_acquisition_not_guarded_by_mode w can Hm)
    as ((_ & Hpick) & _ & Hblob & _).
  destruct (Hblob []) as [Hen Hst].
  split; [exact Hm |]. split; [| split; [exact Hst | exact Hpick]].
  apply Hen. vm_compute. lia.
Defined.

(** C1 as stated fails: a second file picked while the first is being
    scanned starts a second submission. *)
Lemma C1_counterexample :
  let w := run [EPickFile (Some leaf)] init in
  let w' := handle (EPickFile (Some can)) w in
  mode w = MScanning /\ enabled w (EPickFile (Some can)) /\
  w' <> w /\ fileName w' = "can.jpg" /\
  size (inflight w) = 1 /\ size (inflight w') = 2 /\
  size (intervals w') = 2.
Proof.
  intros w w'.
  split; [reflexivity |]. split; [exact I |]. split.
  { intros H. apply (f_equal nextInterval) in H. vm_compute in H.
    discriminate. }
  split; [reflexivity |].
  split; [vm_compute; reflexivity |].
  split; vm_compute; reflexivity.
Qed.

(** ** A response that arrives after a reset *)

(** C2, as the code has it: [resetAll] neither cancels a request in
    flight nor its timer, and [uploadToAPI] checks nothing before it
    applies a response.  A success that arrives after the reset stores
    its body, sets progress to 100 and opens 'result' on the reset
    session. *)
Theorem C2_late_result_applied_after_reset
  (w : World) (id status : nat) (data : json) :
  ok status = true ->
  let w0 := handle EResetAll w in
  let w' := handle (EResponse id (Responded status (inr data))) w0 in
  (mode w0 = MIdle /\ result w0 = JNull /\ progress w0 = 0%Q /\
   inflight w0 = inflight w /\ intervals w0 = intervals w) /\
  (mode w' = MResult /\ result w' = data /\ progress w' = 100%Q).
Proof.
  intros Hok w0 w'. split.
  - unfold w0, handle.
    rewrite modeEffect_mode, modeEffect_result, modeEffect_progress.
    destruct (modeEffect_timers (mode w) (resetAll w)) as (-> & _ & -> & _).
    done.
  - unfold w', handle.
    rewrite modeEffect_mode, modeEffect_result, modeEffect_progress.
    unfold uploadToAPI_settle. simpl. by rewrite Hok.
Qed.

Lemma C2_late_result_applied_after_reset_witness :
  let w := run [EPickFile (Some leaf); EPickFile (Some can);
                EResponse 0 (Responded 200 (inr organic))] init in
  let w' := handle (EResponse 1 (Responded 200 (inr metal)))
              (handle EResetAll w) in
  mode w' = MResult /\ result w' = metal /\ progress w' = 100%Q.
Proof.
  apply (C2_late_result_applied_after_reset
           (run [EPickFile (Some leaf); EPickFile (Some can);
                 EResponse 0 (Responded 200 (inr organic))] init)
           1 200 metal).
  reflexivity.
Defined.

(** C2 as stated fails: two files are picked, the first result is shown
    and closed, and the second response then repopulates the session. *)
Lemma C2_counterexample :
  let tr := [EPickFile (Some leaf); EPickFile (Some can);
             EResponse 0 (Responded 200 (inr organic)); EResetAll] in
  let late := EResponse 1 (Responded 200 (inr metal)) in
  feasible (tr ++ [late]) init /\
  sess (run tr init) = initial_session /\
  mode (run (tr ++ [late]) init) = MResult /\
  result (run (tr ++ [late]) init) = metal /\
  progress (run (tr ++ [late]) init) = 100%Q.
Proof.
  intros tr late. split.
  - apply feasibleb_sound. vm_compute. reflexivity.
  - repeat split; vm_compute; reflexivity.
Qed.

(** ** A submission that fails *)

(** C9, as the code has it: whichever way the [try] block throws, the
    [catch] branch stores a non-empty message and goes back to 'idle';
    there is no error mode.  It does not write [result]: the result is
    null afterwards exactly when it was null before. *)
Theorem C9_failure_returns_to_idle
  (w : World) (id : nat) (o : FetchOutcome) (message : string) :
  attempt o = inl message ->
  let w' := handle (EResponse id o) w in
  mode w' = MIdle /\
  error w' = or_else message "Something went wrong while scanning" /\
  error w' <> "" /\
  result w' = result w /\
  progress w' = progress w.
Proof.
  intros Hfail w'.
  assert (Hs : sess w' =
    sess (setMode MIdle
      (setError (or_else message "Something went wrong while scanning") w))).
  { unfold w', handle. rewrite modeEffect_sess.
    - unfold uploadToAPI_settle. by rewrite Hfail.
    - unfold uploadToAPI_settle. by rewrite Hfail. }
  rewrite Hs. simpl. repeat split. by apply or_else_nonempty.
Qed.

Lemma C9_failure_returns_to_idle_witness :
  let w' := handle (EResponse 0 (Responded 500 (inl "")))
              (handle (EPickFile (Some leaf)) init) in
  mode w' = MIdle /\ error w' = "Scan failed (500)" /\ error w' <> "" /\
  result w' = JNull /\ progress w' = 0%Q.
Proof.
  exact (C9_failure_returns_to_idle (handle (EPickFile (Some leaf)) init)
           0 (Responded 500 (inl "")) "Scan failed (500)" eq_refl).
Defined.

(** C9 as stated fails: of two overlapping submissions the first
    succeeds and the second gets HTTP 500; the session ends in 'idle'
    with an error and with the first result still stored. *)
Lemma C9_counterexample :
  let tr := [EPickFile (Some leaf); EPickFile (Some can);
             EResponse 0 (Responded 200 (inr organic));
             EResponse 1 (Responded 500 (inl ""))] in
  feasible tr init /\
  mode (run tr init) = MIdle /\
  error (run tr init) = "Scan failed (500)" /\
  result (run tr init) = organic /\
  result (run tr init) <> JNull.
Proof.
  intros tr. split.
  - apply feasibleb_sound. vm_compute. reflexivity.
  - split; [vm_compute; reflexivity |].
    split; [vm_compute; reflexivity |].
    assert (H : result (run tr init) = organic) by (vm_compute; reflexivity).
    split; [exact H |]. rewrite H. discriminate.
Qed.

(** ** Reset *)

(** C7, as the code has it: [resetAll] puts every state cell back to its
    initial value, so [result], [error] and [progress] are null, empty
    and 0.  The preview URL is only forgotten: no object URL is revoked,
    so the set of live object URLs is the same before and after. *)
Theorem C7_resetAll_clears_but_does_not_revoke (w : World) :
  let w' := handle EResetAll w in
  sess w' = initial_session /\
  result w' = JNull /\ error w' = "" /\ progress w' = 0%Q /\
  previewURL w' = NoURL /\
  objectURLs w' = objectURLs w.
Proof.
  intros w'.
  assert (Hs : sess w' = initial_session).
  { unfold w', handle. by rewrite modeEffect_sess. }
  rewrite Hs. repeat split.
  unfold w', handle.
  by destruct (modeEffect_urls (mode w) (resetAll w)) as [-> _].
Qed.

(** C7 as stated fails: the preview URL of a scanned file is still a
    live object URL after the result has been closed. *)
Lemma C7_counterexample :
  let tr := [EPickFile (Some leaf);
             EResponse 0 (Responded 200 (inr organic))] in
  feasible (tr ++ [EResetAll]) init /\
  mode (run tr init) = MResult /\
  previewURL (run tr init) = BlobURL 0 /\
  previewURL (run (tr ++ [EResetAll]) init) = NoURL /\
  0 ∈ objectURLs (run (tr ++ [EResetAll]) init).
Proof.
  intros tr. split.
  - apply feasibleb_sound. vm_compute. reflexivity.
  - split; [vm_compute; reflexivity |].
    split; [vm_compute; reflexivity |].
    split; [vm_compute; reflexivity |].
    apply (bool_decide_unpack _). vm_compute. exact I.
Qed.

(** ** Opening the camera *)

(** C6, as the code has it: the request for the camera is
    [setMode('camera')] itself, and [startCamera] runs as the effect of
    that mode.  [startCamera] never writes [mode]: when it fails the
    mode stays 'camera', the error is the camera message, and
    [streamRef] is left as it was. *)
Theorem C6_failed_camera_stays_in_camera_mode
  (w : World) (o : CameraOutcome) :
  camera_failed o = true ->
  let w1 := handle EActivateCamera w in
  let w2 := handle (ECameraSettled o) w1 in
  mode w1 = MCamera /\
  mode w2 = MCamera /\
  error w2 = camera_error /\
  streamRef w2 = streamRef w1 /\
  mode (startCamera_settle o w) = mode w.
Proof.
  intros Hfail w1 w2.
  assert (H1 : mode w1 = MCamera).
  { unfold w1, handle. by rewrite modeEffect_mode. }
  assert (H2 : w2 = startCamera_settle o w1).
  { unfold w2, handle. apply modeEffect_same.
    by destruct o as [| s []]. }
  rewrite H2. split; [done |].
  destruct o as [| s []]; try discriminate; simpl; by rewrite H1.
Qed.

Lemma C6_failed_camera_stays_in_camera_mode_witness :
  let w2 := handle (ECameraSettled Denied) (handle EActivateCamera init) in
  mode w2 = MCamera /\ error w2 = camera_error.
Proof.
  pose proof (C6_failed_camera_stays_in_camera_mode init Denied eq_refl)
    as (_ & H2 & H3 & _).
  split; [exact H2 | exact H3].
Defined.

(** C6 as stated fails: from 'idle', a camera request that is denied
    leaves the session in 'camera', not in the mode it had before. *)
Lemma C6_counterexample :
  let tr := [EActivateCamera; ECameraSettled Denied] in
  feasible tr init /\
  mode init = MIdle /\
  mode (run tr init) = MCamera /\
  mode (run tr init) <> mode init /\
  error (run tr init) = camera_error.
Proof.
  intros tr. split.
  - apply feasibleb_sound. vm_compute. reflexivity.
  - split; [reflexivity |].
    split; [vm_compute; reflexivity |].
    split; [| vm_compute; reflexivity].
    intros H. vm_compute in H. discriminate.
Qed.

(** ** The percentage shown while scanning *)

Lemma Math_min_spec a b : Math_min a b = Z.min a b.
Proof. unfold Math_min. destruct (Z.ltb_spec b a); lia. Qed.

(** [Math_round x] is the integer closest to [x], the upper one on a
    tie. *)
Lemma Math_round_closest (x : Q) :
  (inject_Z (Math_round x) - (1 # 2) <= x)%Q /\
  (x < inject_Z (Math_round x) + (1 # 2))%Q.
Proof.
  unfold Math_round.
  pose proof (Qfloor_le (x + (1 # 2))) as Hle.
  pose proof (Qlt_floor (x + (1 # 2))) as Hlt.
  rewrite inject_Z_plus in Hlt.
  change (inject_Z 1) with 1%Q in Hlt.
  split; lra.
Qed.

(** C10: whatever the internal progress is, also beyond 96 or 100, the
    percentage [Scanning] prints is the smaller of 100 and the progress
    rounded to the closest integer; it is never above 100. *)
Theorem C10_displayed_percentage_capped (p : Q) :
  Scanning p = Z.min 100 (Math_round p) /\
  (Scanning p <= 100)%Z /\
  ((inject_Z (Math_round p) - (1 # 2) <= p)%Q /\
   (p < inject_Z (Math_round p) + (1 # 2))%Q) /\
  ((199 # 2 <= p)%Q -> Scanning p = 100%Z).
Proof.
  unfold Scanning. rewrite Math_min_spec.
  split; [done |]. split; [lia |].
  split; [apply Math_round_closest |].
  intros Hp. apply Z.min_l.
  unfold Math_round.
  assert (H : (inject_Z 100 <= p + (1 # 2))%Q).
  { change (inject_Z 100) with 100%Q. lra. }
  apply Qfloor_resp_le in H. by rewrite Qfloor_Z in H.
Qed.

(** ** The simulated progress *)

(** The run used below: one file is picked and the timer fires 28 times
    while the request is in flight, [Math.random()] giving 0.5 each
    time. *)
Lemma ticks_to_98 :
  let tr := EPickFile (Some leaf) :: repeat (ETick 0 (1 # 2)) 28 in
  feasible tr init /\ (progress (run tr init) == 98)%Q.
Proof.
  intros tr. split.
  - apply feasibleb_sound. vm_compute. reflexivity.
  - vm_compute. reflexivity.
Qed.

(** C3 fails on the code: the updater tests [p >= 96] before it adds the
    increment and does not clamp the sum, so a tick taken just below 96
    lands above it.  Here progress is 94.5 after 27 ticks and 98 after
    the 28th, while the submission is still waiting for its response. *)
Theorem C3_progress_overshoots_96 :
  let tr := EPickFile (Some leaf) :: repeat (ETick 0 (1 # 2)) 28 in
  feasible tr init /\
  mode (run tr init) = MScanning /\
  0 ∈ dom (inflight (run tr init)) /\
  (progress (run (firstn 28 tr) init) == 189 # 2)%Q /\
  (progress (run tr init) == 98)%Q /\
  (96 < progress (run tr init))%Q.
Proof.
  intros tr. split; [apply ticks_to_98 |].
  split; [vm_compute; reflexivity |].
  split; [apply (bool_decide_unpack _); vm_compute; exact I |].
  split; [vm_compute; reflexivity |].
  split; vm_compute; reflexivity.
Qed.

(** C4 fails on the code: the tick after an overshoot sets progress back
    to 96.  After the 28 ticks above progress is 98; the 29th tick makes
    it 96. *)
Theorem C4_progress_drops_after_overshoot :
  let tr := EPickFile (Some leaf) :: repeat (ETick 0 (1 # 2)) 28 in
  let w := run tr init in
  let w' := handle (ETick 0 (1 # 2)) w in
  feasible (tr ++ [ETick 0 (1 # 2)]) init /\
  mode w' = MScanning /\
  (progress w == 98)%Q /\
  progress w' = 96%Q /\
  (progress w' < progress w)%Q.
Proof.
  intros tr w w'. split.
  - apply feasibleb_sound. vm_compute. reflexivity.
  - split; [vm_compute; reflexivity |].
    split; [vm_compute; reflexivity |].
    split; vm_compute; reflexivity.
Qed.

(** ** Reaching 'result' *)

(** An event leaves the mode at 'result' only by storing the body of a
    2xx response, or by leaving a session that already was in 'result'
    with its result untouched. *)
Lemma handle_result_mode e (w : World) :
  mode (handle e w) = MResult ->
  (exists id status data,
      e = EResponse id (Responded status (inr data)) /\
      ok status = true /\ result (handle e w) = data) \/
  (mode w = MResult /\ result (handle e w) = result w).
Proof.
  unfold handle. rewrite modeEffect_mode, modeEffect_result.
  destruct e as [f | f | | | | blob | | | o | id r | id o].
  - destruct f; [discriminate | by right].
  - destruct f; [discriminate | by right].
  - discriminate.
  - discriminate.
  - by right.
  - destruct blob; [discriminate | by right].
  - discriminate.
  - right. unfold downloadReport in *.
    destruct (negb (truthy (result w))); done.
  - right. by destruct o as [| s []].
  - right. unfold tick in *. destruct (Qle_bool 96 (progress w)); done.
  - unfold uploadToAPI_settle. destruct (attempt o) as [msg | data] eqn:E.
    + discriminate.
    + intros _. left. apply attempt_success in E as (status & -> & Hok).
      by exists id, status, data.
Qed.

Lemma result_mode_has_stored_body tr :
  mode (run tr init) = MResult ->
  exists id status data,
    In (EResponse id (Responded status (inr data))) tr /\
    ok status = true /\ result (run tr init) = data.
Proof.
  induction tr as [| e tr IH] using rev_ind; [discriminate |].
  rewrite run_app. simpl. intros Hm.
  destruct (handle_result_mode e (run tr init) Hm)
    as [(id & status & data & -> & Hok & Hr) | [Hm' Hr]].
  - exists id, status, data. split; [| done].
    apply in_or_app. right. by left.
  - destruct (IH Hm') as (id & status & data & Hin & Hok & Hd).
    exists id, status, data. split; [apply in_or_app; by left |].
    split; [done |]. by rewrite Hr.
Qed.

(** C8, as the code has it: a submission that ends in success leaves
    progress at 100, the parsed body in [result] and the mode at
    'result', its timer unscheduled.  The body is stored as
    [resp.json()] gives it, without validation.  So in every run,
    whenever the mode is 'result', [result] holds the parsed body of a
    2xx response of that run: a ScanResult when the endpoint sent an
    object, as it promises, and then the condition
    [mode==='result' && result] of the modal holds; but null when the
    body was the JSON value null. *)
Theorem C8_success_reaches_result :
  (forall (w : World) id status data,
      ok status = true ->
      let w' := handle (EResponse id (Responded status (inr data))) w in
      progress w' = 100%Q /\ result w' = data /\ mode w' = MResult /\
      (id ∉ intervals w') /\ (id ∉ dom (inflight w'))) /\
  (forall tr,
      mode (run tr init) = MResult ->
      exists id status data,
        In (EResponse id (Responded status (inr data))) tr /\
        ok status = true /\ result (run tr init) = data) /\
  (forall tr,
      (forall id status data,
          In (EResponse id (Responded status (inr data))) tr ->
          truthy data = true) ->
      mode (run tr init) = MResult ->
      truthy (result (run tr init)) = true).
Proof.
  split; [| split].
  - intros w id status data Hok w'. unfold w', handle.
    rewrite modeEffect_mode, modeEffect_result, modeEffect_progress.
    match goal with |- context [modeEffect ?m ?x] =>
      destruct (modeEffect_timers m x) as (-> & _ & -> & _) end.
    unfold uploadToAPI_settle. simpl. rewrite Hok. simpl.
    split; [reflexivity |]. split; [reflexivity |].
    split; [reflexivity |]. split.
    + apply not_elem_of_difference. right. by apply elem_of_singleton.
    + rewrite dom_delete. apply not_elem_of_difference. right.
      by apply elem_of_singleton.
  - apply result_mode_has_stored_body.
  - intros tr Hall Hm.
    destruct (result_mode_has_stored_body tr Hm)
      as (id & status & data & Hin & _ & ->).
    by apply (Hall id status data).
Qed.

Lemma C8_success_reaches_result_witness :
  let tr := [EPickFile (Some leaf);
             EResponse 0 (Responded 200 (inr organic))] in
  (progress (run tr init) = 100%Q /\ result (run tr init) = organic /\
   mode (run tr init) = MResult) /\
  truthy (result (run tr init)) = true.
Proof.
  intros tr.
  destruct C8_success_reaches_result as (H1 & _ & H3).
  split.
  - destruct (H1 (handle (EPickFile (Some leaf)) init) 0 200 organic
                eq_refl) as (Hp & Hr & Hm & _).
    split; [exact Hp |]. split; [exact Hr | exact Hm].
  - apply H3; [| vm_compute; reflexivity].
    intros id status data [H | [H | []]]; [discriminate |].
    injection H as Hid Hstatus Hdata. rewrite <- Hdata. reflexivity.
Defined.

(** C8 as stated fails: a 2xx response whose body is the JSON value
    null parses without error, so the session reaches 'result' with
    [result] still null and the modal does not render. *)
Lemma C8_counterexample :
  let tr := [EPickFile (Some leaf);
             EResponse 0 (Responded 200 (inr JNull))] in
  feasible tr init /\
  mode (run tr init) = MResult /\
  progress (run tr init) = 100%Q /\
  result (run tr init) = JNull /\
  truthy (result (run tr init)) = false.
Proof.
  intros tr. split.
  - apply feasibleb_sound. vm_compute. reflexivity.
  - split; [vm_compute; reflexivity |].
    split; [vm_compute; reflexivity |].
    split; vm_compute; reflexivity.
Qed.

(** ** Cancelling the timer *)

Lemma calls_same who id (w w' : World) :
  cleared w' = cleared w -> calls who id w' = calls who id w.
Proof. unfold calls. by intros ->. Qed.

Lemma calls_logged who id who' id' (w w' : World) :
  cleared w' = (id', who') :: cleared w ->
  calls who id w' =
    if decide ((id', who') = (id, who)) then S (calls who id w)
    else calls who id w.
Proof.
  unfold calls. intros ->. destruct (decide _) as [E | E].
  - by apply count_occ_cons_eq.
  - by apply count_occ_cons_neq.
Qed.

Lemma handle_timer_step (w : World) e :
  enabled w e -> timer_step w (handle e w).
Proof.
  intros He. unfold handle.
  match goal with |- context [modeEffect ?m ?x] =>
    destruct (modeEffect_timers m x) as (E1 & E2 & E3 & E4) end.
  destruct e as [f | f | | | | blob | | | o | id r | id o].
  - destruct f as [f |]; [| by apply ts_same].
    eapply ts_start; rewrite ?E1, ?E2, ?E3, ?E4; reflexivity.
  - destruct f as [f |]; [| by apply ts_same].
    eapply ts_start; rewrite ?E1, ?E2, ?E3, ?E4; reflexivity.
  - by apply ts_same.
  - by apply ts_same.
  - by apply ts_same.
  - destruct blob as [blob |]; [| by apply ts_same].
    eapply ts_start; rewrite ?E1, ?E2, ?E3, ?E4; reflexivity.
  - by apply ts_same.
  - apply ts_same; rewrite ?E1, ?E2, ?E3, ?E4; unfold downloadReport;
      destruct (negb (truthy (result w))); reflexivity.
  - apply ts_same; rewrite ?E1, ?E2, ?E3, ?E4;
      destruct o as [| s []]; reflexivity.
  - destruct He as (Hin & _ & _).
    unfold tick in *. destruct (Qle_bool 96 (progress w)).
    + by apply (ts_tick _ _ id).
    + by apply ts_same.
  - simpl in He. apply (ts_settle _ _ id); [done | ..];
      rewrite ?E1, ?E2, ?E3, ?E4; unfold uploadToAPI_settle;
      destruct (attempt o); reflexivity.
Qed.

Lemma timers_ok_init : timers_ok init.
Proof.
  split; intros id; intros; unfold calls; simpl in *;
    rewrite ?dom_empty_L in *; first [lia | set_solver].
Qed.

Lemma timer_step_ok (w w' : World) :
  timer_step w w' -> timers_ok w -> timers_ok w'.
Proof.
  intros Hstep [H1 H2 H3 H4 H5 H6 H7].
  destruct Hstep as [Ei En Ef Ec | r Ei En Ef Ec
                    | id Hin Ei En Ef Ec | id Hin Ei En Ef Ec].
  - split; intros id; intros;
      rewrite ?(calls_same _ _ w w' Ec), ?Ei, ?En, ?Ef in *; auto.
  - assert (Hn : nextInterval w ∉ dom (inflight w)).
    { intros H. apply H2 in H. lia. }
    split; intros id; intros;
      rewrite ?(calls_same _ _ w w' Ec) in *;
      rewrite ?Ei, ?En, ?Ef, ?dom_insert in *.
    + set_solver.
    + destruct (decide (id = nextInterval w)) as [-> | Hne]; [lia |].
      assert (id ∈ dom (inflight w)) by set_solver.
      apply H2 in H0. lia.
    + destruct (decide (id = nextInterval w)) as [-> | Hne].
      * apply H7. lia.
      * apply H3. set_solver.
    + apply H4; [| set_solver].
      destruct (decide (id = nextInterval w)) as [-> | Hne]; [| lia].
      set_solver.
    + destruct (decide (id = nextInterval w)) as [-> | Hne].
      * apply H7. lia.
      * apply H5. set_solver.
    + apply H6.
    + apply H7. lia.
  - assert (Hid : (id < nextInterval w)%nat) by (apply H2, H1, Hin).
    split; intros id'; intros;
      rewrite ?(calls_logged _ _ _ _ w w' Ec) in *;
      rewrite ?Ei, ?En, ?Ef in *.
    + apply H1. set_solver.
    + by apply H2.
    + rewrite decide_False by congruence. by apply H3.
    + rewrite decide_False by congruence. by apply H4.
    + rewrite decide_False by set_solver. apply H5. set_solver.
    + destruct (decide _) as [E | E]; [| apply H6].
      injection E as ->. rewrite (H5 id' Hin). lia.
    + rewrite decide_False; [by apply H7 |].
      intros E. injection E as -> _. lia.
  - assert (Hid : (id < nextInterval w)%nat) by (apply H2, Hin).
    split; intros id'; intros;
      rewrite ?(calls_logged _ _ _ _ w w' Ec) in *;
      rewrite ?Ei, ?En, ?Ef, ?dom_delete in *.
    + assert (id' ∈ dom (inflight w)) by (apply H1; set_solver).
      set_solver.
    + apply H2. set_solver.
    + rewrite decide_False by set_solver. apply H3. set_solver.
    + destruct (decide _) as [E | E].
      * injection E as ->. by rewrite (H3 id' Hin).
      * apply H4; [done |].
        assert (id' <> id) by congruence. set_solver.
    + rewrite decide_False by congruence. apply H5. set_solver.
    + rewrite decide_False by congruence. apply H6.
    + rewrite decide_False; [by apply H7 |].
      intros E. injection E as -> _. lia.
Qed.

Lemma reachable_timers_ok (w : World) : reachable w -> timers_ok w.
Proof.
  induction 1 as [| w e Hw IH He]; [apply timers_ok_init |].
  eapply timer_step_ok; [by apply handle_timer_step | done].
Qed.

(** C5, as the code has it: for every submission, whatever its outcome,
    the closure returned by [beginScanUI] is called exactly once, when
    the submission ends and not before, and from then on its timer is
    not scheduled.  That closure is not the only place where ticking is
    cancelled: the tick calls [clearInterval] itself, at most once, when
    it finds progress at 96 or above. *)
Theorem C5_handle_cancels_once_at_the_end (w : World) (id : nat) :
  reachable w ->
  (id < nextInterval w)%nat ->
  (id ∈ dom (inflight w) -> calls ByHandle id w = 0%nat) /\
  (id ∉ dom (inflight w) ->
     calls ByHandle id w = 1%nat /\ id ∉ intervals w) /\
  (calls ByTick id w <= 1)%nat.
Proof.
  intros Hw Hid. destruct (reachable_timers_ok w Hw) as [H1 H2 H3 H4 H5 H6 H7].
  split; [apply H3 |]. split; [| apply H6].
  intros Hn. split; [by apply H4 |].
  intros Hin. by apply Hn, H1.
Qed.

Lemma C5_handle_cancels_once_at_the_end_witness :
  let w := run [EPickFile (Some leaf);
                EResponse 0 (Responded 500 (inl ""))] init in
  calls ByHandle 0 w = 1%nat /\ 0 ∉ intervals w.
Proof.
  intros w.
  assert (Hw : reachable w).
  { apply feasible_reachable; [apply reach_init |].
    apply feasibleb_sound. vm_compute. reflexivity. }
  assert (Hid : (0 < nextInterval w)%nat) by (vm_compute; lia).
  destruct (C5_handle_cancels_once_at_the_end w 0 Hw Hid) as (_ & H & _).
  apply H.
  apply (proj1 (bool_decide_eq_false (0 ∈ dom (inflight w)))).
  vm_compute. reflexivity.
Defined.

(** C5 as stated fails: when the progress has reached 96 the tick
    cancels the timer, and the closure cancels it again when the
    response arrives: two [clearInterval] calls for one timer, one of
    them not through the closure. *)
Lemma C5_counterexample :
  let tr := EPickFile (Some leaf) :: repeat (ETick 0 (1 # 2)) 29 ++
            [EResponse 0 (Responded 200 (inr organic))] in
  feasible tr init /\
  cleared (run tr init) = [(0, ByHandle); (0, ByTick)]%nat /\
  calls ByTick 0 (run tr init) = 1%nat /\
  calls ByHandle 0 (run tr init) = 1%nat.
Proof.
  intros tr. split.
  - apply feasibleb_sound. vm_compute. reflexivity.
  - split; [vm_compute; reflexivity |].
    split; vm_compute; reflexivity.
Qed.

(** ** Further properties of the scan session *)

(** What one task can do to [progress]. *)
Lemma handle_progress e (w : World) :
  enabled w e ->
  progress (handle e w) = progress w \/
  progress (handle e w) = 0%Q \/
  progress (handle e w) = 96%Q \/
  progress (handle e w) = 100%Q \/
  exists r, is_double r /\ (r < 1)%Q /\ (progress w < 96)%Q /\
            progress (handle e w) = round64 (progress w + round64 (r * 7)).
Proof.
  intros He. unfold handle. rewrite modeEffect_progress.
  destruct e as [f | f | | | | blob | | | o | id r | id o].
  - destruct f; [right; by left | by left].
  - destruct f; [right; by left | by left].
  - by left.
  - by left.
  - by left.
  - destruct blob; [right; by left | by left].
  - right. by left.
  - left. unfold downloadReport. by destruct (negb (truthy (result w))).
  - left. by destruct o as [| s []].
  - destruct He as (_ & Hr & Hr1). unfold tick.
    destruct (Qle_bool 96 (progress w)) eqn:E.
    + right. right. by left.
    + do 4 right. exists r. repeat split; try done.
      apply Qnot_le_lt. intros Hle. apply Qle_bool_iff in Hle. congruence.
  - unfold uploadToAPI_settle. destruct (attempt o).
    + by left.
    + do 3 right. by left.
Qed.

(** The bound the timer really keeps, in double arithmetic: in every
    reachable state the progress is a double, never negative and always
    below 103 (at most [103 - 2^-46]), whatever the ticks draw and
    however submissions overlap; the percentage shown is then between 0
    and 100. *)
Theorem progress_within_0_103 (w : World) :
  reachable w ->
  is_double (progress w) /\
  (0 <= progress w)%Q /\ (progress w < 103)%Q /\
  (0 <= Scanning (progress w) <= 100)%Z.
Proof.
  intros Hw.
  destruct is_double_consts as (_ & _ & H96 & H100 & _).
  pose proof (pow2_pos (-46)) as Hv.
  assert (Hv1 : (pow2 (-46) <= 1)%Q) by (vm_compute; discriminate).
  set (v := pow2 (-46)) in *.
  assert (H : is_double (progress w) /\ (progress w <= 103 - v)%Q).
  { induction Hw as [| w e Hw [IH1 IH2] He].
    - split; [apply is_double_0 |]. change (0 <= 103 - v)%Q. lra.
    - destruct (handle_progress e w He)
        as [-> | [-> | [-> | [-> | (r & Hr & Hr1 & Hp & ->)]]]].
      + done.
      + split; [apply is_double_0 | lra].
      + split; [done | lra].
      + split; [done | lra].
      + destruct (tick_sum_bounds (progress w) r IH1 Hp Hr Hr1)
          as (Hd & _ & Hle). done. }
  destruct H as [Hd Hle]. pose proof (is_double_nonneg _ Hd) as H0.
  split; [done |]. split; [done |]. split; [lra |].
  unfold Scanning. rewrite Math_min_spec. split; [| lia].
  apply Z.min_glb; [lia |]. unfold Math_round.
  assert (Hf : (inject_Z 0 <= progress w + (1 # 2))%Q).
  { change (inject_Z 0) with 0%Q. lra. }
  apply Qfloor_resp_le in Hf. by rewrite Qfloor_Z in Hf.
Qed.

Lemma progress_within_0_103_witness :
  let w := run (EPickFile (Some leaf) :: repeat (ETick 0 (1 # 2)) 28) init in
  (progress w < 103)%Q /\ (0 <= Scanning (progress w) <= 100)%Z.
Proof.
  intros w.
  assert (Hw : reachable w).
  { apply feasible_reachable; [apply reach_init |].
    apply feasibleb_sound. vm_compute. reflexivity. }
  destruct (progress_within_0_103 w Hw) as (_ & _ & H1 & H2).
  split; [exact H1 | exact H2].
Defined.

(** A tick writes [progress] and nothing else of the session, and never
    touches the requests.  While the progress is below 96 it keeps its
    timer, calls no [clearInterval] and, on doubles, does not decrease
    the progress and leaves it below 103; once the progress is 96 or
    more it sets exactly 96 and unschedules its own timer, so that
    timer cannot fire again. *)
Theorem tick_effect (w : World) (id : nat) (r : Q) :
  let w' := handle (ETick id r) w in
  (mode w' = mode w /\ result w' = result w /\ error w' = error w /\
   fileName w' = fileName w /\ previewURL w' = previewURL w /\
   inflight w' = inflight w) /\
  ((progress w < 96)%Q ->
     intervals w' = intervals w /\ cleared w' = cleared w /\
     (is_double (progress w) -> is_double r -> (r < 1)%Q ->
        (progress w <= progress w')%Q /\ (progress w' < 103)%Q)) /\
  ((96 <= progress w)%Q ->
     progress w' = 96%Q /\ intervals w' = intervals w ∖ {[id]} /\
     cleared w' = (id, ByTick) :: cleared w /\
     ~ enabled w' (ETick id r)).
Proof.
  intros w'.
  assert (Hw' : w' = tick id r w).
  { unfold w', handle. apply modeEffect_same. unfold tick.
    by destruct (Qle_bool 96 (progress w)). }
  rewrite Hw'. unfold tick.
  destruct (Qle_bool 96 (progress w)) eqn:E.
  - apply Qle_bool_iff in E. split; [done |]. split; [intros; lra |].
    intros _. split; [done |]. split; [done |]. split; [done |].
    simpl. intros (Hin & _).
    apply elem_of_difference in Hin as [_ Hin]. apply Hin.
    by apply elem_of_singleton.
  - assert (Hlt : (progress w < 96)%Q).
    { apply Qnot_le_lt. intros Hle. apply Qle_bool_iff in Hle. congruence. }
    split; [done |]. split; [| intros; lra].
    intros _. split; [done |]. split; [done |].
    intros Hp Hr Hr1. simpl.
    destruct (tick_sum_bounds (progress w) r Hp Hlt Hr Hr1)
      as (_ & Hge & Hle).
    pose proof (pow2_pos (-46)). split; [done | lra].
Qed.

Lemma tick_effect_witness :
  let w := run (EPickFile (Some leaf) :: repeat (ETick 0 (1 # 2)) 28) init in
  let w' := handle (ETick 0 (1 # 2)) w in
  progress w' = 96%Q /\ ~ enabled w' (ETick 0 (1 # 2)).
Proof.
  intros w w'.
  assert (H96 : (96 <= progress w)%Q) by (vm_compute; discriminate).
  destruct (tick_effect w 0 (1 # 2)) as (_ & _ & H).
  destruct (H H96) as (Hp & _ & _ & Hen).
  split; [exact Hp | exact Hen].
Defined.

(** No timer outlives its submission: every scheduled timer belongs to
    a request that is still in flight, so with no request in flight no
    timer is scheduled. *)
Theorem no_timer_without_request (w : World) :
  reachable w ->
  (forall id, id ∈ intervals w -> id ∈ dom (inflight w)) /\
  (inflight w = ∅ -> intervals w = ∅).
Proof.
  intros Hw. destruct (reachable_timers_ok w Hw) as [H1 _ _ _ _ _ _].
  split; [exact H1 |].
  intros He. apply set_eq. intros id. split; [| set_solver].
  intros Hin. apply H1 in Hin. rewrite He, dom_empty_L in Hin. set_solver.
Qed.

Lemma no_timer_without_request_witness :
  let w := run [EPickFile (Some leaf);
                EResponse 0 (Responded 500 (inl ""))] init in
  intervals w = ∅.
Proof.
  intros w.
  assert (Hw : reachable w).
  { apply feasible_reachable; [apply reach_init |].
    apply feasibleb_sound. vm_compute. reflexivity. }
  apply (proj2 (no_timer_without_request w Hw)).
  vm_compute. reflexivity.
Defined.

Lemma modeEffect_preview m (w : World) :
  previewURL (modeEffect m w) = previewURL w /\
  fileName (modeEffect m w) = fileName w.
Proof.
  unfold modeEffect. destruct (decide _); [done |].
  destruct (mode w); try done; unfold stopCamera;
    destruct (streamRef w); done.
Qed.

(** Requests are sent by acquisitions and retired by responses, and by
    nothing else.  In a reachable world an acquisition with a payload
    sends exactly one request, under an id no request in flight has, so
    no request is overwritten; it carries the bytes and the name of the
    file (or "camera-capture.png" for a captured frame). *)
Theorem acquisition_sends_one_request (w : World) (e : Event) :
  reachable w ->
  match acquisition e with
  | Some r =>
      inflight w !! nextInterval w = None /\
      inflight (handle e w) = <[nextInterval w := r]> (inflight w) /\
      size (inflight (handle e w)) = S (size (inflight w))
  | None =>
      is_response e = false -> inflight (handle e w) = inflight w
  end.
Proof.
  intros Hw. destruct (reachable_timers_ok w Hw) as [_ H2 _ _ _ _ _].
  assert (Hfresh : inflight w !! nextInterval w = None).
  { apply not_elem_of_dom. intros H. apply H2 in H. lia. }
  unfold handle.
  match goal with |- context [modeEffect ?m ?x] =>
    destruct (modeEffect_timers m x) as (_ & _ & E & _) end.
  rewrite E. clear E.
  destruct e as [[f |] | [f |] | | | | [blob |] | | | o | id r | id o]; simpl;
    try (intros _; reflexivity);
    try (split; [done |]; split; [reflexivity |];
         by apply map_size_insert_None).
  - intros _. unfold downloadReport.
    by destruct (negb (truthy (result w))).
  - intros _. by destruct o as [| s []].
  - intros _. unfold tick. by destruct (Qle_bool 96 (progress w)).
  - discriminate.
Qed.

Lemma acquisition_sends_one_request_witness :
  let w := handle (EPickFile (Some leaf)) init in
  inflight (handle (EDrop (Some can)) w) =
    <[1%nat := {| req_image := []; req_name := "can.jpg" |}]> (inflight w).
Proof.
  intros w.
  assert (Hw : reachable w).
  { apply (reach_step init (EPickFile (Some leaf)) reach_init). exact I. }
  pose proof (acquisition_sends_one_request w (EDrop (Some can)) Hw) as H.
  destruct H as (_ & H & _). exact H.
Defined.

(** What one task can do to [mode], with what it does to the requests
    when it enters 'scanning'. *)
Lemma handle_mode e (w : World) :
  (mode (handle e w) = mode w /\ inflight (handle e w) = inflight w /\
   nextInterval (handle e w) = nextInterval w) \/
  (mode (handle e w) = MScanning /\
   nextInterval (handle e w) = S (nextInterval w) /\
   nextInterval w ∈ dom (inflight (handle e w))) \/
  mode (handle e w) = MIdle \/ mode (handle e w) = MCamera \/
  mode (handle e w) = MResult.
Proof.
  unfold handle. rewrite modeEffect_mode.
  match goal with |- context [modeEffect ?m ?x] =>
    destruct (modeEffect_timers m x) as (_ & E1 & E2 & _) end.
  rewrite E1, E2. clear E1 E2.
  destruct e as [[f |] | [f |] | | | | [blob |] | | | o | id r | id o]; simpl;
    try (left; done);
    try (right; left; split; [done |]; split; [done |];
         rewrite dom_insert; set_solver);
    try (right; right; left; done);
    try (right; right; right; left; done).
  - left. unfold downloadReport. by destruct (negb (truthy (result w))).
  - left. by destruct o as [| s []].
  - left. unfold tick. by destruct (Qle_bool 96 (progress w)).
  - unfold uploadToAPI_settle. destruct (attempt o).
    + right. right. by left.
    + do 4 right. done.
Qed.

(** While the mode is 'scanning' the request of the latest acquisition
    is still in flight: the session never shows the scanning state with
    no response left to end it. *)
Theorem scanning_has_request_in_flight (w : World) :
  reachable w -> mode w = MScanning ->
  exists id, S id = nextInterval w /\ id ∈ dom (inflight w).
Proof.
  induction 1 as [| w e Hw IH He]; [discriminate |].
  destruct (handle_mode e w)
    as [(Em & Ef & En) | [(Em & En & Hin) | [Em | [Em | Em]]]];
    rewrite Em; try discriminate.
  - rewrite Ef, En. exact IH.
  - intros _. exists (nextInterval w). by rewrite En.
Qed.

Lemma scanning_has_request_in_flight_witness :
  exists id, S id = nextInterval (handle (EPickFile (Some leaf)) init) /\
             id ∈ dom (inflight (handle (EPickFile (Some leaf)) init)).
Proof.
  apply scanning_has_request_in_flight; [| reflexivity].
  apply (reach_step init (EPickFile (Some leaf)) reach_init). exact I.
Defined.

(** The mode 'upload' of the comment on line 11 is never entered. *)
Theorem mode_upload_never_entered (w : World) :
  reachable w -> mode w <> MUpload.
Proof.
  induction 1 as [| w e Hw IH He]; [discriminate |].
  destruct (handle_mode e w)
    as [(Em & _) | [(Em & _) | [Em | [Em | Em]]]];
    rewrite Em; done.
Qed.

Lemma mode_upload_never_entered_witness :
  mode (handle (EPickFile (Some leaf)) init) <> MUpload.
Proof.
  apply mode_upload_never_entered.
  apply (reach_step init (EPickFile (Some leaf)) reach_init). exact I.
Defined.

(** ** The camera stream *)

(** [stopCamera] is safe without a stream and idempotent; afterwards no
    stream is held and the one that was held is stopped. *)
Lemma stopCamera_releases (w : World) :
  streamRef (stopCamera w) = None /\
  stopCamera (stopCamera w) = stopCamera w /\
  (streamRef w = None -> stopCamera w = w) /\
  (forall s, streamRef w = Some s -> s ∉ openStreams (stopCamera w)).
Proof.
  unfold stopCamera. destruct (streamRef w) as [s |] eqn:E; simpl.
  - repeat split; try done. intros s' [= <-]. set_solver.
  - rewrite E. repeat split; done.
Qed.

(** Every task that takes the session out of 'camera' mode (Close, the
    callback of a capture, a response of an earlier submission, a
    picked or dropped file) releases the camera: [streamRef] is emptied
    and the stream it held is stopped. *)
Theorem leaving_camera_stops_stream (w : World) (e : Event) :
  mode w = MCamera ->
  mode (handle e w) <> MCamera ->
  streamRef (handle e w) = None /\
  (forall s, streamRef w = Some s -> s ∉ openStreams (handle e w)).
Proof.
  intros Hm. unfold handle. rewrite modeEffect_mode, Hm.
  set (x := match e with
            | EPickFile f => onPickFile f w
            | EDrop f => onDrop f w
            | EActivateCamera => setMode MCamera w
            | ECloseCamera => setMode MIdle w
            | ECapture => onCapture w
            | EToBlob blob => onCapture_toBlob blob w
            | EResetAll => resetAll w
            | EDownloadReport => downloadReport w
            | ECameraSettled o => startCamera_settle o w
            | ETick id r => tick id r w
            | EResponse id o => uploadToAPI_settle id o w
            end).
  intros Hx.
  assert (Hsame : streamRef x = streamRef w /\ openStreams x = openStreams w).
  { unfold x in *.
    destruct e as [[f |] | [f |] | | | | [blob |] | | | o | id r | id o];
      try done.
    - unfold downloadReport. by destruct (negb (truthy (result w))).
    - exfalso. apply Hx. rewrite <- Hm. by destruct o as [| s []].
    - unfold tick. by destruct (Qle_bool 96 (progress w)).
    - unfold uploadToAPI_settle. by destruct (attempt o). }
  destruct Hsame as [Hs Ho].
  assert (Heff : modeEffect MCamera x = stopCamera x).
  { unfold modeEffect. rewrite decide_False by done. by destruct (mode x). }
  rewrite Heff. destruct (stopCamera_releases x) as (H1 & _ & _ & H4).
  split; [done |]. intros s Hws. apply H4. by rewrite Hs.
Qed.

Lemma leaving_camera_stops_stream_witness :
  let w := run [EActivateCamera; ECameraSettled (Granted 7 true);
                ECapture] init in
  streamRef w = Some 7%nat /\
  streamRef (handle (EToBlob (Some [])) w) = None /\
  7 ∉ openStreams (handle (EToBlob (Some [])) w).
Proof.
  intros w.
  assert (Hm : mode w = MCamera) by reflexivity.
  assert (Hx : mode (handle (EToBlob (Some [])) w) <> MCamera)
    by discriminate.
  destruct (leaving_camera_stops_stream w (EToBlob (Some [])) Hm Hx)
    as [H1 H2].
  split; [reflexivity |]. split; [exact H1 |]. apply H2. reflexivity.
Defined.

(** Asking for the camera while the mode is already 'camera' does
    nothing: the effect does not run again, no second [getUserMedia]
    is issued.  Coming from another mode it issues exactly one and
    clears the error. *)
Theorem activate_camera_requests_once (w : World) :
  (mode w = MCamera -> handle EActivateCamera w = w) /\
  (mode w <> MCamera ->
     cameraRequests (handle EActivateCamera w) = S (cameraRequests w) /\
     error (handle EActivateCamera w) = "" /\
     mode (handle EActivateCamera w) = MCamera).
Proof.
  split.
  - intros Hm. unfold handle. rewrite modeEffect_same; [| by rewrite Hm].
    destruct w as [[m fn pu rs pg er] sr os cr pb iv ni fl ou nu cl].
    simpl in Hm. by rewrite <- Hm.
  - intros Hm. unfold handle, modeEffect.
    rewrite decide_False; [done |]. simpl. congruence.
Qed.

Lemma activate_camera_requests_once_witness :
  cameraRequests (handle EActivateCamera init) = 1%nat /\
  handle EActivateCamera (handle EActivateCamera init) =
    handle EActivateCamera init.
Proof.
  destruct (activate_camera_requests_once init) as [_ H1].
  destruct (activate_camera_requests_once (handle EActivateCamera init))
    as [H2 _].
  split.
  - apply H1. discriminate.
  - apply H2. reflexivity.
Defined.

(** ** Object URLs *)

(** What one task can do to the object URLs and to the preview. *)
Lemma handle_urls e (w : World) :
  (objectURLs (handle e w) = objectURLs w /\
   nextURL (handle e w) = nextURL w /\
   (previewURL (handle e w) = previewURL w \/
    previewURL (handle e w) = NoURL)) \/
  (objectURLs (handle e w) = {[nextURL w]} ∪ objectURLs w /\
   nextURL (handle e w) = S (nextURL w) /\
   previewURL (handle e w) = BlobURL (nextURL w)) \/
  (objectURLs (handle e w) = ({[nextURL w]} ∪ objectURLs w) ∖ {[nextURL w]} /\
   nextURL (handle e w) = S (nextURL w) /\
   previewURL (handle e w) = previewURL w).
Proof.
  unfold handle.
  match goal with |- context [modeEffect ?m ?x] =>
    destruct (modeEffect_urls m x) as (E1 & E2);
    destruct (modeEffect_preview m x) as (E3 & _) end.
  rewrite E1, E2, E3. clear E1 E2 E3.
  destruct e as [[f |] | [f |] | | | | [blob |] | | | o | id r | id o]; simpl;
    try (left; split; [done |]; split; [done |]; left; done);
    try (right; left; done).
  - left. split; [done |]. split; [done |]. by right.
  - unfold downloadReport. destruct (negb (truthy (result w))).
    + left. split; [done |]. split; [done |]. by left.
    + right. right. done.
  - left. destruct o as [| s []];
      (split; [done |]; split; [done |]; by left).
  - left. unfold tick. destruct (Qle_bool 96 (progress w));
      (split; [done |]; split; [done |]; by left).
  - left. unfold uploadToAPI_settle. destruct (attempt o);
      (split; [done |]; split; [done |]; by left).
Qed.

Lemma reachable_urls_ok (w : World) :
  reachable w ->
  (forall u, u ∈ objectURLs w -> (u < nextURL w)%nat) /\
  (forall u, previewURL w = BlobURL u -> u ∈ objectURLs w).
Proof.
  induction 1 as [| w e Hw [IH1 IH2] He].
  - split; [set_solver | discriminate].
  - destruct (handle_urls e w)
      as [(E1 & E2 & [E3 | E3]) | [(E1 & E2 & E3) | (E1 & E2 & E3)]];
      rewrite E1, E2, E3.
    + done.
    + split; [done | discriminate].
    + split.
      * intros u [Hu | Hu]%elem_of_union; [| apply IH1 in Hu; lia].
        apply elem_of_singleton in Hu. lia.
      * intros u [= <-]. set_solver.
    + split.
      * intros u [[Hu | Hu]%elem_of_union _]%elem_of_difference;
          [| apply IH1 in Hu; lia].
        apply elem_of_singleton in Hu. lia.
      * intros u Hu. apply IH2 in Hu. pose proof (IH1 u Hu).
        apply elem_of_difference. split; [set_solver |].
        intros ->%elem_of_singleton. lia.
Qed.

(** The preview never dangles and nothing is ever released: in a
    reachable world a preview URL is a live object URL, no task removes
    a live object URL, and [downloadReport] revokes exactly the URL it
    has created itself, leaving the set of live URLs and the session as
    they were. *)
Theorem object_urls_never_released (w : World) (e : Event) :
  reachable w ->
  (forall u, previewURL w = BlobURL u -> u ∈ objectURLs w) /\
  objectURLs w ⊆ objectURLs (handle e w) /\
  objectURLs (handle EDownloadReport w) = objectURLs w /\
  sess (handle EDownloadReport w) = sess w.
Proof.
  intros Hw. destruct (reachable_urls_ok w Hw) as [H1 H2].
  assert (Hfresh : nextURL w ∉ objectURLs w).
  { intros H. apply H1 in H. lia. }
  split; [exact H2 |]. split; [| split].
  - destruct (handle_urls e w)
      as [(E1 & _) | [(E1 & _) | (E1 & _)]]; rewrite E1; set_solver.
  - destruct (handle_urls EDownloadReport w)
      as [(E1 & _) | [(E1 & _ & E3) | (E1 & _)]]; rewrite E1.
    + done.
    + exfalso. revert E3. unfold handle.
      destruct (modeEffect_preview (mode w) (downloadReport w)) as [-> _].
      unfold downloadReport. destruct (negb (truthy (result w))); simpl.
      * intros E. apply H2 in E. done.
      * intros E. apply H2 in E. done.
    + set_solver.
  - unfold handle.
    assert (Hs : sess (downloadReport w) = sess w).
    { unfold downloadReport. by destruct (negb (truthy (result w))). }
    rewrite modeEffect_same; [done | by rewrite Hs].
Qed.

Lemma object_urls_never_released_witness :
  let w := run [EPickFile (Some leaf);
                EResponse 0 (Responded 200 (inr organic))] init in
  objectURLs (handle EDownloadReport w) = objectURLs w /\
  0 ∈ objectURLs w.
Proof.
  intros w.
  assert (Hw : reachable w).
  { apply feasible_reachable; [apply reach_init |].
    apply feasibleb_sound. vm_compute. reflexivity. }
  destruct (object_urls_never_released w EDownloadReport Hw)
    as (H1 & _ & H3 & _).
  split; [exact H3 |]. apply H1. reflexivity.
Defined.

(** ** Class names and the result modal *)

Lemma append_empty_r (s : string) : s ++ "" = s.
Proof. induction s as [| c s IH]; simpl; [done | by f_equal]. Qed.

Lemma append_assoc (a b c : string) : (a ++ b) ++ c = a ++ (b ++ c).
Proof. induction a as [| x a IH]; simpl; [done | by f_equal]. Qed.

Lemma concat_app (sep : string) (l1 l2 : list string) :
  l1 <> [] -> l2 <> [] ->
  String.concat sep (l1 ++ l2) =
  String.concat sep l1 ++ sep ++ String.concat sep l2.
Proof.
  intros H1 H2. induction l1 as [| x l1 IH]; [done |].
  destruct l1 as [| y l1].
  - simpl. destruct l2; done.
  - change (String.concat sep ((x :: y :: l1) ++ l2))
      with (x ++ sep ++ String.concat sep ((y :: l1) ++ l2)).
    rewrite IH by done.
    change (String.concat sep (x :: y :: l1))
      with (x ++ sep ++ String.concat sep (y :: l1)).
    by rewrite !append_assoc.
Qed.

Lemma concat_empty (sep : string) (l : list string) :
  Forall (fun s => s <> "") l -> String.concat sep l = "" -> l = [].
Proof.
  intros Hall. destruct l as [| x l]; [done |].
  apply Forall_cons_iff in Hall as [Hx _].
  destruct x as [| c x]; [done |]. destruct l; discriminate.
Qed.

Lemma kept_nonempty (xs : list ClassArg) :
  Forall (fun s => s <> "") (map toString (List.filter Boolean xs)).
Proof.
  induction xs as [| [s |] xs IH]; simpl; [done | | done].
  destruct (String.eqb_spec s ""); simpl; [done |].
  by apply Forall_cons.
Qed.

Lemma classNames_empty (xs : list ClassArg) :
  classNames xs = "" <-> List.filter Boolean xs = [].
Proof.
  unfold classNames. split.
  - intros H. apply concat_empty in H; [| apply kept_nonempty].
    by destruct (List.filter Boolean xs).
  - by intros ->.
Qed.

(** [classNames] drops falsy arguments without leaving a separator, and
    joins argument lists the same way it joins arguments: the class of
    [xs] followed by [ys] is the two classes separated by one space, or
    the other one when one of them is empty. *)
Theorem classNames_compose (xs ys : list ClassArg) :
  classNames (xs ++ ys) =
    (if String.eqb (classNames xs) "" then classNames ys
     else if String.eqb (classNames ys) "" then classNames xs
     else classNames xs ++ " " ++ classNames ys) /\
  classNames (xs ++ CFalse :: ys) = classNames (xs ++ ys) /\
  classNames (xs ++ CStr "" :: ys) = classNames (xs ++ ys).
Proof.
  split; [| split].
  - destruct (String.eqb_spec (classNames xs) "") as [Ex | Ex].
    + apply classNames_empty in Ex. unfold classNames.
      by rewrite List.filter_app, Ex.
    + destruct (String.eqb_spec (classNames ys) "") as [Ey | Ey].
      * apply classNames_empty in Ey. unfold classNames.
        by rewrite List.filter_app, Ey, List.app_nil_r.
      * unfold classNames in *. rewrite List.filter_app, List.map_app.
        apply concat_app.
        -- intros H. by rewrite H in Ex.
        -- intros H. by rewrite H in Ey.
  - unfold classNames. by rewrite !List.filter_app.
  - unfold classNames. by rewrite !List.filter_app.
Qed.

Lemma chip_class_cases (l : string) (result : json) :
  chip_class l result =
    if strict_eq_string l (get_field "label" result)
    then "chip chip-active" else "chip".
Proof.
  unfold chip_class.
  by destruct (strict_eq_string l (get_field "label" result)).
Qed.

Lemma strict_eq_string_true (l : string) (v : option json) :
  strict_eq_string l v = true <-> v = Some (JStr l).
Proof.
  destruct v as [[| b | q | s | items | fields] |]; simpl;
    try (split; discriminate).
  rewrite String.eqb_eq. split; [by intros -> | by intros [= ->]].
Qed.

Lemma labels_distinct (s : string) :
  (List.length (List.filter (fun l => String.eqb l s) labels) <= 1)%nat.
Proof.
  unfold labels. cbn [List.filter].
  repeat match goal with
         | |- context [String.eqb ?a s] => destruct (String.eqb_spec a s)
         end; cbn [List.length]; try lia; subst; discriminate.
Qed.

(** At most one chip of the result modal is active, and one is active
    exactly when the label of the result is one of the five known
    labels; every other chip has the plain class. *)
Theorem one_active_chip (result : json) :
  (List.length (active_chips result) <= 1)%nat /\
  (forall l, In (l, "chip chip-active") (chips result) <->
             In l labels /\ get_field "label" result = Some (JStr l)) /\
  (forall l c, In (l, c) (chips result) ->
               c = "chip" \/ c = "chip chip-active").
Proof.
  split; [| split].
  - unfold active_chips, chips.
    assert (H : forall ls,
      List.length (List.filter
        (fun c : string * string => String.eqb (snd c) "chip chip-active")
        (map (fun l => (l, chip_class l result)) ls)) =
      List.length (List.filter
        (fun l => strict_eq_string l (get_field "label" result)) ls)).
    { induction ls as [| l ls IH]; [done |]. simpl.
      rewrite chip_class_cases.
      destruct (strict_eq_string l (get_field "label" result)); simpl;
        by rewrite IH. }
    rewrite H.
    destruct (get_field "label" result) as [[| b | q | s | items | fields] |];
      try (simpl; lia).
    unfold strict_eq_string. apply labels_distinct.
  - intros l. unfold chips. rewrite in_map_iff. split.
    + intros (l0 & [= -> E] & Hin). split; [done |].
      apply strict_eq_string_true. rewrite chip_class_cases in E.
      by destruct (strict_eq_string l (get_field "label" result)).
    + intros [Hin E]. exists l. split; [| done].
      rewrite chip_class_cases.
      apply strict_eq_string_true in E. by rewrite E.
  - intros l c. unfold chips. rewrite in_map_iff.
    intros (l0 & [= -> <-] & _). rewrite chip_class_cases.
    destruct (strict_eq_string l (get_field "label" result)); tauto.
Qed.



(** ** The base URL of the endpoint *)

Lemma length_append (a b : string) :
  String.length (a ++ b) = (String.length a + String.length b)%nat.
Proof. induction a as [| c a IH]; simpl; [done | by rewrite IH]. Qed.

Lemma prefix_slice (p s : string) :
  String.prefix p s = true -> s = p ++ slice (String.length p) s.
Proof.
  revert s. induction p as [| c p IH]; intros s; [done |].
  destruct s as [| d s]; simpl; [discriminate |].
  destruct (Ascii.ascii_dec c d) as [-> | Hne]; [| discriminate].
  intros H. f_equal. by apply IH.
Qed.

Lemma prefix_append (p s : string) : String.prefix p (p ++ s) = true.
Proof.
  induction p as [| c p IH]; simpl; [by destruct s |].
  destruct (Ascii.ascii_dec c c); done.
Qed.

Lemma replace_eq (pat rep s : string) :
  replace pat rep s =
    if String.prefix pat s then rep ++ slice (String.length pat) s
    else match s with
         | EmptyString => EmptyString
         | String c s => String c (replace pat rep s)
         end.
Proof. by destruct s. Qed.

Lemma replace_first (pat rep s a b : string) :
  s = a ++ pat ++ b ->
  exists a' b',
    s = a' ++ pat ++ b' /\ replace pat rep s = a' ++ rep ++ b' /\
    (String.length a' <= String.length a)%nat.
Proof.
  revert a. induction s as [| c s IH]; intros a Hs;
    rewrite replace_eq;
    match goal with |- context [String.prefix pat ?x] =>
      destruct (String.prefix pat x) eqn:E end.
  - exists "", (slice (String.length pat) "").
    split; [by apply prefix_slice |]. split; [done | simpl; lia].
  - destruct a; [| discriminate]. simpl in Hs.
    rewrite Hs, prefix_append in E. discriminate.
  - exists "", (slice (String.length pat) (String c s)).
    split; [by apply prefix_slice |]. split; [done | simpl; lia].
  - destruct a as [| d a].
    + simpl in Hs. rewrite Hs, prefix_append in E. discriminate.
    + simpl in Hs. injection Hs as <- Hs.
      destruct (IH a Hs) as (a' & b' & H1 & H2 & H3).
      exists (String c a'), b'. simpl. split; [by rewrite <- H1 |].
      split; [by rewrite H2 | lia].
Qed.

Lemma replace_absent (pat rep s : string) :
  (forall a b, s <> a ++ pat ++ b) -> replace pat rep s = s.
Proof.
  induction s as [| c s IH]; intros Hs; rewrite replace_eq;
    match goal with |- context [String.prefix pat ?x] =>
      destruct (String.prefix pat x) eqn:E end; try done.
  - apply prefix_slice in E. by apply (Hs "") in E.
  - apply prefix_slice in E. by apply (Hs "") in E.
  - f_equal. apply IH. intros a b ->. by apply (Hs (String c a) b).
Qed.

Lemma replace_length (pat rep s : string) :
  String.length pat = String.length rep ->
  String.length (replace pat rep s) = String.length s.
Proof.
  intros Hlen. induction s as [| c s IH]; rewrite replace_eq;
    match goal with |- context [String.prefix pat ?x] =>
      destruct (String.prefix pat x) eqn:E end; try done.
  - apply prefix_slice in E. rewrite E at 2.
    by rewrite !length_append, Hlen.
  - apply prefix_slice in E. rewrite E at 2.
    by rewrite !length_append, Hlen.
  - simpl. by rewrite IH.
Qed.

(** A non-empty [VITE_BACKEND_URL] is the base URL as it is.  Without
    it the base URL is the page's origin with its first "3000" turned
    into "8000" and everything else kept: the same length, the origin
    itself when it contains no "3000", and the empty string when there
    is no window. *)
Theorem API_BASE_port_substitution (o : string) :
  (forall e origin, e <> "" -> API_BASE (Some e) origin = e) /\
  API_BASE (Some "") (Some o) = API_BASE None (Some o) /\
  API_BASE None None = "" /\
  String.length (API_BASE None (Some o)) = String.length o /\
  ((forall a b, o <> a ++ "3000" ++ b) -> API_BASE None (Some o) = o) /\
  (forall a b, o = a ++ "3000" ++ b ->
     exists a' b', o = a' ++ "3000" ++ b' /\
       API_BASE None (Some o) = a' ++ "8000" ++ b' /\
       (String.length a' <= String.length a)%nat).
Proof.
  split; [| split; [| split; [| split; [| split]]]].
  - intros e origin He. unfold API_BASE.
    by destruct (String.eqb_spec e "").
  - done.
  - done.
  - by apply replace_length.
  - apply replace_absent.
  - intros a b. apply replace_first.
Qed.

Lemma API_BASE_port_substitution_witness :
  API_BASE (Some "https://api.example.org") (Some "http://localhost:3000") =
    "https://api.example.org" /\
  String.length (API_BASE None (Some "http://localhost:3000")) = 21%nat.
Proof.
  destruct (API_BASE_port_substitution "http://localhost:3000")
    as (H1 & _ & _ & H4 & _).
  split.
  - apply H1. discriminate.
  - exact H4.
Defined.

End App.
